(** * The map picker and the media widget of the location-reporting form

    A shallow embedding of the two React components [MapPicker] and
    [MediaUploader].  Component state ([useState]) and refs ([useRef]) are the
    fields of a record that is passed explicitly; every call into a browser
    API, the mapping SDK or a callback prop is recorded, in order, in a trace
    of effects.  Callbacks registered with the platform are kept in the state
    together with the values their closures captured. *)

From Stdlib Require Import ZArith List Bool Lia PrimFloat String Ascii.
From Stdlib Require Import DecimalString DecimalPos DecimalZ.
From stdpp Require Import base option list.

Set Warnings "-inexact-float".
#[local] Open Scope Z_scope.

(** ** Handlers: state passing with a trace of effects *)

Section Handlers.
Context {St Eff : Type}.

(** An event handler runs to completion on the single event loop: it maps
    the state before to the state after and to the calls it made. *)
Definition Handler : Type := St -> St * list Eff.

Definition skip : Handler := fun s => (s, []).

Definition emit (e : Eff) : Handler := fun s => (s, [e]).

Definition modify (f : St -> St) : Handler := fun s => (f s, []).

Definition seq (h1 h2 : Handler) : Handler :=
  fun s => let '(s1, o1) := h1 s in
           let '(s2, o2) := h2 s1 in (s2, o1 ++ o2).

(** [if (c) h], [c] a value the closure captured. *)
Definition when (c : bool) (h : Handler) : Handler :=
  if c then h else skip.

(** [if (c) h], [c] read from the current state (a ref, or the state of
    the render the handler belongs to). *)
Definition whenS (c : St -> bool) (h : Handler) : Handler :=
  fun s => if c s then h s else (s, []).
End Handlers.

Arguments Handler : clear implicits.

Declare Scope handler_scope.
Delimit Scope handler_scope with handler.
Notation "h1 ;; h2" := (seq h1 h2)
  (at level 100, h2 at level 200, right associativity) : handler_scope.

(** ** MapPicker *)

Module MapPicker.

(** [Coordinates] of [../types]: two JavaScript numbers, stored and passed
    on, never computed with. *)
Record Coordinates : Set := { lat : float; lng : float }.

(** The options object handed to [getCurrentPosition]. *)
Record PositionOptions : Set :=
  { enableHighAccuracy : bool; timeout : Z; maximumAge : Z }.

(** What the component does to the outside. *)
Inductive Effect : Set :=
| Alert                                       (* alert(t('gpsFailed')) *)
| OnLocationSelect (coords : Coordinates)     (* the callback prop *)
| GetCurrentPosition (options : PositionOptions)
| FlyTo (center : Coordinates) (zoom : Z) (essential : bool)
| NewMarker (at_ : Coordinates)               (* new Marker().setLngLat().addTo() *)
| MarkerSetLngLat (at_ : Coordinates).

(** What the component finds around it: the browser's capabilities and the
    constant of [../constants]. *)
Record Platform : Set :=
  { geolocation : bool;            (* navigator.geolocation is there *)
    webgl : bool;                  (* mapboxgl.supported() *)
    map_constructs : bool;         (* new mapboxgl.Map(...) does not throw *)
    MAP_DEFAULT_CENTER : Coordinates }.

(** The pair of closures [success]/[error] of one [handleGeolocation] call:
    both capture that call's two arguments. *)
Record Callbacks : Set :=
  { cb_showError : bool; cb_enableHighAccuracy : bool }.

Record State : Set :=
  { mounted : bool;
    location : option Coordinates;       (* the prop *)
    map_current : bool;                  (* map.current is not null *)
    marker_current : option Coordinates; (* marker.current and where it is *)
    mapLoaded : bool;
    mapError : bool;
    isLocating : bool;
    manualFallbackUsed : bool;
    outstanding : list Callbacks }.      (* positioning calls not yet answered *)

Definition init (l : option Coordinates) : State :=
  {| mounted := false; location := l; map_current := false;
     marker_current := None; mapLoaded := false; mapError := false;
     isLocating := false; manualFallbackUsed := false; outstanding := [] |}.

Definition set_mounted (b : bool) (s : State) : State :=
  {| mounted := b; location := location s; map_current := map_current s;
     marker_current := marker_current s; mapLoaded := mapLoaded s;
     mapError := mapError s; isLocating := isLocating s;
     manualFallbackUsed := manualFallbackUsed s; outstanding := outstanding s |}.

Definition set_location (l : option Coordinates) (s : State) : State :=
  {| mounted := mounted s; location := l; map_current := map_current s;
     marker_current := marker_current s; mapLoaded := mapLoaded s;
     mapError := mapError s; isLocating := isLocating s;
     manualFallbackUsed := manualFallbackUsed s; outstanding := outstanding s |}.

Definition set_map_current (b : bool) (s : State) : State :=
  {| mounted := mounted s; location := location s; map_current := b;
     marker_current := marker_current s; mapLoaded := mapLoaded s;
     mapError := mapError s; isLocating := isLocating s;
     manualFallbackUsed := manualFallbackUsed s; outstanding := outstanding s |}.

Definition set_marker_current (m : option Coordinates) (s : State) : State :=
  {| mounted := mounted s; location := location s; map_current := map_current s;
     marker_current := m; mapLoaded := mapLoaded s;
     mapError := mapError s; isLocating := isLocating s;
     manualFallbackUsed := manualFallbackUsed s; outstanding := outstanding s |}.

Definition set_mapLoaded (b : bool) (s : State) : State :=
  {| mounted := mounted s; location := location s; map_current := map_current s;
     marker_current := marker_current s; mapLoaded := b;
     mapError := mapError s; isLocating := isLocating s;
     manualFallbackUsed := manualFallbackUsed s; outstanding := outstanding s |}.

Definition set_mapError (b : bool) (s : State) : State :=
  {| mounted := mounted s; location := location s; map_current := map_current s;
     marker_current := marker_current s; mapLoaded := mapLoaded s;
     mapError := b; isLocating := isLocating s;
     manualFallbackUsed := manualFallbackUsed s; outstanding := outstanding s |}.

Definition set_isLocating (b : bool) (s : State) : State :=
  {| mounted := mounted s; location := location s; map_current := map_current s;
     marker_current := marker_current s; mapLoaded := mapLoaded s;
     mapError := mapError s; isLocating := b;
     manualFallbackUsed := manualFallbackUsed s; outstanding := outstanding s |}.

Definition set_manualFallbackUsed (b : bool) (s : State) : State :=
  {| mounted := mounted s; location := location s; map_current := map_current s;
     marker_current := marker_current s; mapLoaded := mapLoaded s;
     mapError := mapError s; isLocating := isLocating s;
     manualFallbackUsed := b; outstanding := outstanding s |}.

Definition set_outstanding (l : list Callbacks) (s : State) : State :=
  {| mounted := mounted s; location := location s; map_current := map_current s;
     marker_current := marker_current s; mapLoaded := mapLoaded s;
     mapError := mapError s; isLocating := isLocating s;
     manualFallbackUsed := manualFallbackUsed s; outstanding := l |}.

#[local] Open Scope handler_scope.

Section Component.
Variable env : Platform.

Definition H := Handler State Effect.

Definition setMapLoaded (b : bool) : H := modify (set_mapLoaded b).
Definition setMapError (b : bool) : H := modify (set_mapError b).
Definition setIsLocating (b : bool) : H := modify (set_isLocating b).
Definition setManualFallbackUsed (b : bool) : H :=
  modify (set_manualFallbackUsed b).

(** [navigator.geolocation.getCurrentPosition(success, error, options)]:
    the call is made and its two closures wait for the answer. *)
Definition getCurrentPosition (cb : Callbacks) (options : PositionOptions) : H :=
  emit (GetCurrentPosition options) ;;
  modify (fun s => set_outstanding (outstanding s ++ [cb]) s).

(** The first effect: create the map unless WebGL is missing or the
    constructor throws.  It runs once, on mount, when the container is
    rendered. *)
Definition initializeMap : H :=
  fun s =>
    if map_current s then skip s
    else if negb (webgl env) then setMapError true s
    else if map_constructs env then modify (set_map_current true) s
    else setMapError true s.

(** The second effect, "update marker when location prop changes". *)
Definition updateMarker : H :=
  fun s =>
    match location s with
    | None => skip s
    | Some loc =>
        if map_current s && mapLoaded s then
          match marker_current s with
          | None =>
              (modify (set_marker_current (Some loc)) ;;
               emit (NewMarker loc) ;;
               emit (FlyTo loc 16 true)) s
          | Some _ =>
              (modify (set_marker_current (Some loc)) ;;
               emit (MarkerSetLngLat loc)) s
          end
        else skip s
    end.

Definition handleMapClick (lat lng : float) : H :=
  emit (OnLocationSelect {| lat := lat; lng := lng |}).

Definition handleManualSelect : H :=
  setIsLocating false ;;
  whenS map_current (emit (FlyTo (MAP_DEFAULT_CENTER env) 11 true)).

Definition handleGeolocation (showError enableHighAccuracy : bool) : H :=
  setIsLocating true ;;
  if negb (geolocation env) then
    when showError (emit Alert) ;;
    setIsLocating false ;;
    handleManualSelect
  else
    getCurrentPosition
      {| cb_showError := showError;
         cb_enableHighAccuracy := enableHighAccuracy |}
      {| enableHighAccuracy := enableHighAccuracy;
         timeout := if enableHighAccuracy then 10000 else 20000;
         maximumAge := 0 |}.

(** The closure [success] of a [handleGeolocation] call. *)
Definition success (cb : Callbacks) (latitude longitude : float) : H :=
  emit (OnLocationSelect {| lat := latitude; lng := longitude |}) ;;
  setIsLocating false ;;
  setManualFallbackUsed true ;;
  whenS map_current
    (emit (FlyTo {| lat := latitude; lng := longitude |} 16 true)).

(** The closure [error] of a [handleGeolocation] call. *)
Definition error (cb : Callbacks) (code : Z) : H :=
  if cb_enableHighAccuracy cb && (code =? 3) then
    handleGeolocation (cb_showError cb) false
  else
    when (cb_showError cb) (emit Alert) ;;
    setIsLocating false ;;
    whenS map_current (emit (FlyTo (MAP_DEFAULT_CENTER env) 11 false)).

(** The third effect, on mount. *)
Definition locateOnMount : H :=
  fun s => match location s with
           | None => handleGeolocation false true s
           | Some _ => skip s
           end.

Definition handleFallbackLocation : H :=
  emit (OnLocationSelect (MAP_DEFAULT_CENTER env)) ;;
  setManualFallbackUsed true.

(** *** What is rendered *)

Inductive View : Set :=
| MapView            (* the map container and its overlay buttons *)
| FallbackLocated    (* mapError, location && manualFallbackUsed *)
| FallbackChoose.    (* mapError, otherwise *)

Definition render (s : State) : View :=
  if mapError s then
    if bool_decide (is_Some (location s)) && manualFallbackUsed s
    then FallbackLocated else FallbackChoose
  else MapView.

Inductive Button : Set :=
| GpsButton            (* overlay, disabled={isLocating} *)
| ManualSelectButton   (* overlay *)
| UpdateLocButton      (* t('updateLoc') *)
| UseCurrentLocButton  (* t('useCurrentLoc'), disabled={isLocating} *)
| UseDefaultLocButton. (* t('useDefaultLoc') *)

(** A button can be pressed when the current view shows it and it is not
    disabled. *)
Definition clickable (s : State) (b : Button) : bool :=
  match b, render s with
  | GpsButton, MapView => negb (isLocating s)
  | ManualSelectButton, MapView => true
  | UpdateLocButton, FallbackLocated => true
  | UseCurrentLocButton, FallbackChoose => negb (isLocating s)
  | UseDefaultLocButton, FallbackChoose => true
  | _, _ => false
  end.

Definition onClick (b : Button) : H :=
  match b with
  | GpsButton | UpdateLocButton | UseCurrentLocButton =>
      handleGeolocation true true
  | ManualSelectButton => handleManualSelect
  | UseDefaultLocButton => handleFallbackLocation
  end.

(** *** Events *)

Inductive Event : Set :=
| Mount
| MapLoad                                   (* the map's 'load' *)
| MapClick (lat lng : float)                (* the map's 'click' *)
| MapErrorEvent (about_webgl : bool)        (* the map's 'error' *)
| Click (b : Button)
| PositionSuccess (i : nat) (latitude longitude : float)
| PositionError (i : nat) (code : Z)
| LocationProp (l : option Coordinates).    (* the parent passes a new prop *)

Definition answered (i : nat) : H :=
  modify (fun s => set_outstanding (delete i (outstanding s)) s).

(** One turn of the event loop; [None] when the event cannot happen in
    this state.  The effects run once, on mount.  The map's listeners exist
    once the map does; 'load' fires once; a click needs the map container,
    which is rendered only while [mapError] is false.  The platform answers
    each positioning call at most once: [PositionSuccess i] and
    [PositionError i] take the [i]-th call that is still outstanding and run
    its closure.  A new [location] prop re-runs the marker effect. *)
Definition step (s : State) (e : Event) : option (State * list Effect) :=
  match e with
  | Mount =>
      if mounted s then None
      else Some ((modify (set_mounted true) ;; initializeMap ;;
                  updateMarker ;; locateOnMount) s)
  | MapLoad =>
      if mounted s && map_current s && negb (mapLoaded s)
      then Some ((setMapLoaded true ;; updateMarker) s) else None
  | MapClick la lo =>
      if mounted s && map_current s && negb (mapError s)
      then Some (handleMapClick la lo s) else None
  | MapErrorEvent w =>
      if mounted s && map_current s
      then Some (when w (setMapError true) s) else None
  | Click b =>
      if mounted s && clickable s b then Some (onClick b s) else None
  | PositionSuccess i la lo =>
      match outstanding s !! i with
      | Some cb => Some ((answered i ;; success cb la lo) s)
      | None => None
      end
  | PositionError i code =>
      match outstanding s !! i with
      | Some cb => Some ((answered i ;; error cb code) s)
      | None => None
      end
  | LocationProp l =>
      if mounted s
      then Some ((modify (set_location l) ;; updateMarker) s) else None
  end.

Fixpoint run (s : State) (es : list Event) : option (State * list Effect) :=
  match es with
  | [] => Some (s, [])
  | e :: es' =>
      match step s e with
      | None => None
      | Some (s1, o1) =>
          match run s1 es' with
          | None => None
          | Some (s2, o2) => Some (s2, o1 ++ o2)
          end
      end
  end.

Definition reachable (s : State) : Prop :=
  exists l es out, run (init l) es = Some (s, out).

(** Modelled from the spec: the Coordinate Consumer, the form that owns the
    [location] prop and whose source is not part of the component.  It
    keeps the coordinate it was last given and passes it back as the prop
    ("last-write-wins, no merge").  The prop it passes back counts as a
    changed dependency of the marker effect, which is what happens whenever
    the coordinate differs from the one the form held.  [Coordinates] here
    are values, not objects: a form that keeps the very object it is given
    would not re-render when [handleFallbackLocation] hands it
    [MAP_DEFAULT_CENTER] while it already holds that object, and the effect
    would then not run.  What is proved about the marker effect is therefore
    stated for a coordinate that differs from the current [location]. *)
Fixpoint consumer (out : list Effect) : H :=
  match out with
  | [] => skip
  | OnLocationSelect c :: out' =>
      (modify (set_location (Some c)) ;; updateMarker) ;; consumer out'
  | _ :: out' => consumer out'
  end.

(** A step of the component followed by the consumer's re-render. *)
Definition step_form (s : State) (e : Event) : option (State * list Effect) :=
  match step s e with
  | None => None
  | Some (s1, o1) => let '(s2, o2) := consumer o1 s1 in Some (s2, o1 ++ o2)
  end.

Fixpoint run_form (s : State) (es : list Event) : option (State * list Effect) :=
  match es with
  | [] => Some (s, [])
  | e :: es' =>
      match step_form s e with
      | None => None
      | Some (s1, o1) =>
          match run_form s1 es' with
          | None => None
          | Some (s2, o2) => Some (s2, o1 ++ o2)
          end
      end
  end.

(** *** Reading a trace *)

Definition is_request (e : Effect) : bool :=
  match e with GetCurrentPosition _ => true | _ => false end.
Definition is_alert (e : Effect) : bool :=
  match e with Alert => true | _ => false end.
Definition is_select (e : Effect) : bool :=
  match e with OnLocationSelect _ => true | _ => false end.
Definition is_flyTo (e : Effect) : bool :=
  match e with FlyTo _ _ _ => true | _ => false end.
Definition is_marker (e : Effect) : bool :=
  match e with NewMarker _ | MarkerSetLngLat _ => true | _ => false end.

Definition requests (out : list Effect) : list Effect := List.filter is_request out.
Definition alerts (out : list Effect) : list Effect := List.filter is_alert out.
Definition selects (out : list Effect) : list Effect := List.filter is_select out.
Definition flyTos (out : list Effect) : list Effect := List.filter is_flyTo out.
Definition markers (out : list Effect) : list Effect := List.filter is_marker out.

End Component.

(** *** Vocabulary of the properties, and sample runs *)

(** Browsers to run the component in. *)
Definition centre : Coordinates := {| lat := 36.7538; lng := 3.0588 |}.

Definition browser : Platform :=
  {| geolocation := true; webgl := true; map_constructs := true;
     MAP_DEFAULT_CENTER := centre |}.

Definition browser_without_gps : Platform :=
  {| geolocation := false; webgl := true; map_constructs := true;
     MAP_DEFAULT_CENTER := centre |}.

Definition browser_without_webgl : Platform :=
  {| geolocation := true; webgl := false; map_constructs := true;
     MAP_DEFAULT_CENTER := centre |}.

(** The coordinate a transition into "located" carries, if the event is one. *)
Definition located_by (env : Platform) (e : Event) : option Coordinates :=
  match e with
  | PositionSuccess _ latitude longitude =>
      Some {| lat := latitude; lng := longitude |}
  | MapClick la lo => Some {| lat := la; lng := lo |}
  | Click UseDefaultLocButton => Some (MAP_DEFAULT_CENTER env)
  | _ => None
  end.

Definition first_options : PositionOptions :=
  {| enableHighAccuracy := true; timeout := 10000; maximumAge := 0 |}.

Definition retry_options : PositionOptions :=
  {| enableHighAccuracy := false; timeout := 20000; maximumAge := 0 |}.

(** A positioning call is only ever made where the provider exists. *)
Definition calls_need_provider (env : Platform) (s : State) : Prop :=
  outstanding s = [] \/ geolocation env = true.

(** The closures of the retry that the [error] closure [cb] starts. *)
Definition retry_of (cb : Callbacks) : Callbacks :=
  {| cb_showError := cb_showError cb; cb_enableHighAccuracy := false |}.

(** How the platform answers a positioning call. *)
Inductive Answer : Set :=
| Fix (latitude longitude : float)
| Failure (code : Z).

Definition answer (i : nat) (r : Answer) : Event :=
  match r with
  | Fix la lo => PositionSuccess i la lo
  | Failure code => PositionError i code
  end.

(** The picker just after mounting without a coordinate in [browser]: the
    map exists and the first, high-accuracy call is outstanding. *)
Definition locating : State :=
  {| mounted := true; location := None; map_current := true;
     marker_current := None; mapLoaded := false; mapError := false;
     isLocating := true; manualFallbackUsed := false;
     outstanding := [{| cb_showError := false; cb_enableHighAccuracy := true |}] |}.

(** The fallback view after the default was chosen in
    [browser_without_webgl], with the call made on mount and [k] calls made
    by the "update location" link all unanswered. *)
Definition updating (k : nat) : State :=
  {| mounted := true; location := Some centre; map_current := false;
     marker_current := None; mapLoaded := false; mapError := true;
     isLocating := true; manualFallbackUsed := true;
     outstanding :=
       {| cb_showError := false; cb_enableHighAccuracy := true |} ::
       repeat {| cb_showError := true; cb_enableHighAccuracy := true |} k |}.

(** Two coordinates to exercise the picker with. *)
Definition tap : Coordinates := {| lat := 40.0; lng := -3.7 |}.
Definition fix_ : Coordinates := {| lat := 31.63; lng := -7.99 |}.

Definition is_success (e : Event) : bool :=
  match e with PositionSuccess _ _ _ => true | _ => false end.

End MapPicker.

(** ** MediaUploader: the voice-note recorder *)

Module MediaUploader.

Record Blob : Set := { blob_data : list Byte.byte; blob_type : String.string }.

(** [blob.size] *)
Definition size (b : Blob) : Z := Z.of_nat (length (blob_data b)).

(** [new Blob(parts, { type })] *)
Definition new_Blob (parts : list Blob) (type : String.string) : Blob :=
  {| blob_data := List.concat (List.map blob_data parts); blob_type := type |}.

(** The state of one [MediaRecorder]: [Stopping] between the call of
    [stop()] and the delivery of its last data and its 'stop' event. *)
Inductive RecorderState : Set := Recording | Stopping | Inactive.

(** An interval timer set by [startRecording].  Its callback calls the
    [stopRecording] of the render [startRecording] belongs to, so it sees
    that render's [isRecording]. *)
Record Interval : Set := { iv_id : Z; iv_isRecording : bool }.

Inductive Effect : Set :=
| GetUserMedia                          (* getUserMedia({ audio: true }) *)
| RecorderStart (r : nat)               (* mediaRecorder.start() *)
| RecorderStop (r : nat)                (* mediaRecorder.stop() *)
| InvalidStateError (r : nat)           (* stop() on a recorder not recording *)
| OnAudioChange (blob : option Blob)    (* the callback prop *)
| TracksStop (r : nat)                  (* stream.getTracks().forEach(stop) *)
| SetInterval (id : Z)
| ClearInterval (id : Z)
| AlertMicrophone.

Record State : Set :=
  { audioBlob : option Blob;            (* the prop *)
    isRecording : bool;
    recordingTime : Z;
    isPlaying : bool;
    recorders : list RecorderState;     (* every MediaRecorder created so far *)
    mediaRecorderRef : option nat;      (* which of them the ref holds *)
    audioChunksRef : list Blob;
    timerRef : option Z;
    intervals : list Interval;          (* timers set and not cleared *)
    next_interval : Z;                  (* the id setInterval returns next *)
    awaiting : list bool }.             (* startRecording calls waiting for
                                           getUserMedia, each with the
                                           isRecording of its render *)

Definition init : State :=
  {| audioBlob := None; isRecording := false; recordingTime := 0;
     isPlaying := false; recorders := []; mediaRecorderRef := None;
     audioChunksRef := []; timerRef := None; intervals := [];
     next_interval := 1; awaiting := [] |}.

Definition set_audioBlob (b : option Blob) (s : State) : State :=
  {| audioBlob := b; isRecording := isRecording s;
     recordingTime := recordingTime s; isPlaying := isPlaying s;
     recorders := recorders s; mediaRecorderRef := mediaRecorderRef s;
     audioChunksRef := audioChunksRef s; timerRef := timerRef s;
     intervals := intervals s; next_interval := next_interval s;
     awaiting := awaiting s |}.

Definition set_isRecording (b : bool) (s : State) : State :=
  {| audioBlob := audioBlob s; isRecording := b;
     recordingTime := recordingTime s; isPlaying := isPlaying s;
     recorders := recorders s; mediaRecorderRef := mediaRecorderRef s;
     audioChunksRef := audioChunksRef s; timerRef := timerRef s;
     intervals := intervals s; next_interval := next_interval s;
     awaiting := awaiting s |}.

Definition set_recordingTime (t : Z) (s : State) : State :=
  {| audioBlob := audioBlob s; isRecording := isRecording s;
     recordingTime := t; isPlaying := isPlaying s;
     recorders := recorders s; mediaRecorderRef := mediaRecorderRef s;
     audioChunksRef := audioChunksRef s; timerRef := timerRef s;
     intervals := intervals s; next_interval := next_interval s;
     awaiting := awaiting s |}.

Definition set_isPlaying (b : bool) (s : State) : State :=
  {| audioBlob := audioBlob s; isRecording := isRecording s;
     recordingTime := recordingTime s; isPlaying := b;
     recorders := recorders s; mediaRecorderRef := mediaRecorderRef s;
     audioChunksRef := audioChunksRef s; timerRef := timerRef s;
     intervals := intervals s; next_interval := next_interval s;
     awaiting := awaiting s |}.

Definition set_recorders (l : list RecorderState) (s : State) : State :=
  {| audioBlob := audioBlob s; isRecording := isRecording s;
     recordingTime := recordingTime s; isPlaying := isPlaying s;
     recorders := l; mediaRecorderRef := mediaRecorderRef s;
     audioChunksRef := audioChunksRef s; timerRef := timerRef s;
     intervals := intervals s; next_interval := next_interval s;
     awaiting := awaiting s |}.

Definition set_mediaRecorderRef (r : option nat) (s : State) : State :=
  {| audioBlob := audioBlob s; isRecording := isRecording s;
     recordingTime := recordingTime s; isPlaying := isPlaying s;
     recorders := recorders s; mediaRecorderRef := r;
     audioChunksRef := audioChunksRef s; timerRef := timerRef s;
     intervals := intervals s; next_interval := next_interval s;
     awaiting := awaiting s |}.

Definition set_audioChunksRef (l : list Blob) (s : State) : State :=
  {| audioBlob := audioBlob s; isRecording := isRecording s;
     recordingTime := recordingTime s; isPlaying := isPlaying s;
     recorders := recorders s; mediaRecorderRef := mediaRecorderRef s;
     audioChunksRef := l; timerRef := timerRef s;
     intervals := intervals s; next_interval := next_interval s;
     awaiting := awaiting s |}.

Definition set_timerRef (t : option Z) (s : State) : State :=
  {| audioBlob := audioBlob s; isRecording := isRecording s;
     recordingTime := recordingTime s; isPlaying := isPlaying s;
     recorders := recorders s; mediaRecorderRef := mediaRecorderRef s;
     audioChunksRef := audioChunksRef s; timerRef := t;
     intervals := intervals s; next_interval := next_interval s;
     awaiting := awaiting s |}.

Definition set_intervals (l : list Interval) (n : Z) (s : State) : State :=
  {| audioBlob := audioBlob s; isRecording := isRecording s;
     recordingTime := recordingTime s; isPlaying := isPlaying s;
     recorders := recorders s; mediaRecorderRef := mediaRecorderRef s;
     audioChunksRef := audioChunksRef s; timerRef := timerRef s;
     intervals := l; next_interval := n; awaiting := awaiting s |}.

Definition set_awaiting (l : list bool) (s : State) : State :=
  {| audioBlob := audioBlob s; isRecording := isRecording s;
     recordingTime := recordingTime s; isPlaying := isPlaying s;
     recorders := recorders s; mediaRecorderRef := mediaRecorderRef s;
     audioChunksRef := audioChunksRef s; timerRef := timerRef s;
     intervals := intervals s; next_interval := next_interval s;
     awaiting := l |}.

#[local] Open Scope handler_scope.

Definition H := Handler State Effect.

Definition setIsRecording (b : bool) : H := modify (set_isRecording b).
Definition setRecordingTime (t : Z) : H := modify (set_recordingTime t).
Definition setIsPlaying (b : bool) : H := modify (set_isPlaying b).

(** [window.clearInterval(id)] *)
Definition clearInterval (id : Z) : H :=
  emit (ClearInterval id) ;;
  modify (fun s =>
    set_intervals (List.filter (fun iv => negb (iv_id iv =? id)) (intervals s))
                  (next_interval s) s).

(** [recorder.stop()]: a recorder that is recording stops and will deliver
    its data and its 'stop' event; on any other the call throws. *)
Definition recorder_stop (r : nat) : H :=
  fun s =>
    match recorders s !! r with
    | Some Recording =>
        (emit (RecorderStop r) ;;
         modify (fun s => set_recorders (<[r := Stopping]> (recorders s)) s)) s
    | _ => emit (InvalidStateError r) s
    end.

(** [stopRecording], of a render in which the state [isRecording] had the
    given value. *)
Definition stopRecording (isRecording : bool) : H :=
  fun s =>
    match mediaRecorderRef s with
    | Some r =>
        if isRecording then
          (recorder_stop r ;;
           setIsRecording false ;;
           (fun s =>
              match timerRef s with
              | Some id => if id =? 0 then skip s else clearInterval id s
              | None => skip s
              end)) s
        else skip s
    | None => skip s
    end.

(** The callback of the interval: the updater passed to [setRecordingTime]
    runs on the current value of the state. *)
Definition tick (iv : Interval) : H :=
  fun s =>
    let prev := recordingTime s in
    if prev >=? 30 then
      (stopRecording (iv_isRecording iv) ;; setRecordingTime 30) s
    else setRecordingTime (prev + 1) s.

(** [startRecording] up to its [await]. *)
Definition startRecording (isRecording : bool) : H :=
  emit GetUserMedia ;;
  modify (fun s => set_awaiting (awaiting s ++ [isRecording]) s).

(** [startRecording] after its [await], when the microphone is granted. *)
Definition startRecording_granted (isRecording : bool) : H :=
  fun s =>
    let r := length (recorders s) in
    let id := next_interval s in
    (modify (set_recorders (recorders s ++ [Inactive])) ;;
     modify (set_mediaRecorderRef (Some r)) ;;
     modify (set_audioChunksRef []) ;;
     modify (fun s => set_recorders (<[r := Recording]> (recorders s)) s) ;;
     emit (RecorderStart r) ;;
     setIsRecording true ;;
     setRecordingTime 0 ;;
     emit (SetInterval id) ;;
     modify (fun s =>
       set_intervals
         (intervals s ++ [{| iv_id := id; iv_isRecording := isRecording |}])
         (id + 1) s) ;;
     modify (set_timerRef (Some id))) s.

(** [startRecording] after its [await], when [getUserMedia] rejects. *)
Definition startRecording_denied : H := emit AlertMicrophone.

(** [mediaRecorder.ondataavailable] *)
Definition ondataavailable (data : Blob) : H :=
  fun s =>
    if size data >? 0
    then modify (set_audioChunksRef (audioChunksRef s ++ [data])) s
    else skip s.

(** [mediaRecorder.onstop] of recorder [r]. *)
Definition onstop (r : nat) : H :=
  fun s =>
    (emit (OnAudioChange (Some (new_Blob (audioChunksRef s) "audio/webm"%string))) ;;
     emit (TracksStop r)) s.

Definition deleteAudio : H :=
  emit (OnAudioChange None) ;;
  setRecordingTime 0 ;;
  setIsPlaying false.

Inductive Event : Set :=
| ClickRecord                            (* the round button *)
| UserMedia (i : nat) (granted : bool)   (* getUserMedia settles *)
| Tick (id : Z)                          (* an interval fires *)
| RecorderStopped (r : nat) (data : Blob)
                                         (* last data, then 'stop', after
                                            the widget called stop(); a
                                            recorder the platform stops by
                                            itself is not modelled *)
| ClickDelete
| AudioProp (b : option Blob).           (* the parent passes a new prop *)

Definition find_interval (id : Z) (s : State) : option Interval :=
  List.find (fun iv => iv_id iv =? id) (intervals s).

Definition step (s : State) (e : Event) : option (State * list Effect) :=
  match e with
  | ClickRecord =>
      match audioBlob s with
      | Some _ => None
      | None =>
          Some ((if isRecording s then stopRecording (isRecording s)
                 else startRecording (isRecording s)) s)
      end
  | UserMedia i granted =>
      match awaiting s !! i with
      | Some isRecording =>
          Some ((modify (fun s => set_awaiting (delete i (awaiting s)) s) ;;
                 if granted then startRecording_granted isRecording
                 else startRecording_denied) s)
      | None => None
      end
  | Tick id =>
      match find_interval id s with
      | Some iv => Some (tick iv s)
      | None => None
      end
  | RecorderStopped r data =>
      match recorders s !! r with
      | Some Stopping =>
          Some ((modify (fun s => set_recorders (<[r := Inactive]> (recorders s)) s) ;;
                 ondataavailable data ;;
                 onstop r) s)
      | _ => None
      end
  | ClickDelete =>
      match audioBlob s with
      | Some _ => Some (deleteAudio s)
      | None => None
      end
  | AudioProp b => Some (modify (set_audioBlob b) s)
  end.

Fixpoint run (s : State) (es : list Event) : option (State * list Effect) :=
  match es with
  | [] => Some (s, [])
  | e :: es' =>
      match step s e with
      | None => None
      | Some (s1, o1) =>
          match run s1 es' with
          | None => None
          | Some (s2, o2) => Some (s2, o1 ++ o2)
          end
      end
  end.

Definition is_audio_change (e : Effect) : bool :=
  match e with OnAudioChange _ => true | _ => false end.
Definition is_recorder_stop (e : Effect) : bool :=
  match e with RecorderStop _ => true | _ => false end.

Definition audio_changes (out : list Effect) : list Effect :=
  List.filter is_audio_change out.
Definition recorder_stops (out : list Effect) : list Effect :=
  List.filter is_recorder_stop out.

(** *** Vocabulary of the properties *)

(** The widget while its first recording runs and shows [t] seconds: one
    recorder, recording, and one interval whose callback was created by the
    render in which [isRecording] was still false. *)
Definition recording_at (t : Z) : State :=
  {| audioBlob := None; isRecording := true; recordingTime := t;
     isPlaying := false; recorders := [Recording];
     mediaRecorderRef := Some 0%nat; audioChunksRef := [];
     timerRef := Some 1;
     intervals := [{| iv_id := 1; iv_isRecording := false |}];
     next_interval := 2; awaiting := [] |}.

Definition time_in_range (s : State) : Prop := 0 <= recordingTime s <= 30.

(** Handlers that leave the displayed time alone. *)
Definition keeps_time (h : H) : Prop :=
  forall s, recordingTime (fst (h s)) = recordingTime s.

End MediaUploader.

(** ** Counting over runs of the map picker *)

Module MapPickerTraces.
Import MapPicker.

(** The events that start an acquisition: the mount effect and the three
    buttons wired to [handleGeolocation(true, true)]. *)
Definition is_trigger (e : Event) : bool :=
  match e with
  | Mount => true
  | Click GpsButton | Click UpdateLocButton | Click UseCurrentLocButton => true
  | _ => false
  end.

Definition is_click (e : Event) : bool :=
  match e with Click _ => true | _ => false end.

Definition count_events (f : Event -> bool) (es : list Event) : nat :=
  length (List.filter f es).

(** Outstanding calls whose closures captured [enableHighAccuracy = true]. *)
Definition high_accuracy_pending (l : list Callbacks) : nat :=
  length (List.filter cb_enableHighAccuracy l).

(** Outstanding calls all started without [showError]. *)
Definition all_silent (l : list Callbacks) : Prop :=
  Forall (fun cb => cb_showError cb = false) l.

(** Where the map is created and loaded, the marker sits on the [location]
    prop. *)
Definition marker_in_sync (s : State) : Prop :=
  map_current s = true -> mapLoaded s = true ->
  forall l, location s = Some l -> marker_current s = Some l.

(** The spinner only turns while some call is outstanding. *)
Definition locating_is_pending (s : State) : Prop :=
  isLocating s = true -> outstanding s <> [].

(** A sample run in [browser]: mount without a coordinate, the first call
    times out, and so does its retry. *)
Definition two_timeouts : list Event :=
  [Mount; PositionError 0 3; PositionError 0 3].

(** The picker in [browser] once the map has loaded and the parent has
    passed the tapped coordinate back. *)
Definition shown : State :=
  {| mounted := true; location := Some tap; map_current := true;
     marker_current := Some tap; mapLoaded := true; mapError := false;
     isLocating := true; manualFallbackUsed := false;
     outstanding := [{| cb_showError := false; cb_enableHighAccuracy := true |}] |}.

End MapPickerTraces.

(** ** Well-formed states of the recorder *)

Module MediaUploaderTraces.
Import MediaUploader.

Definition is_invalid_state (e : Effect) : bool :=
  match e with InvalidStateError _ => true | _ => false end.

(** The calls of [stop()] that threw. *)
Definition invalid_state_errors (out : list Effect) : list Effect :=
  List.filter is_invalid_state out.

(** What the widget keeps true: while [isRecording] is set the ref holds a
    recorder that is recording; and every [startRecording] still waiting,
    and every interval, belongs to a render in which [isRecording] was
    false. *)
Definition live (s : State) : Prop :=
  (isRecording s = true ->
   exists r, mediaRecorderRef s = Some r /\
             recorders s !! r = Some Recording) /\
  Forall (fun b => b = false) (awaiting s) /\
  Forall (fun iv => iv_isRecording iv = false) (intervals s).

Definition is_press (e : Event) : bool :=
  match e with ClickRecord => true | _ => false end.

Definition is_grant (e : Event) : bool :=
  match e with UserMedia _ true => true | _ => false end.

(** Nothing was ever recorded. *)
Definition never_recorded (s : State) : Prop :=
  isRecording s = false /\ recorders s = [] /\ intervals s = [] /\
  recordingTime s = 0.

(** A chunk of three bytes, and the refusal of the microphone. *)
Definition chunk : Blob :=
  {| blob_data := [Byte.x00; Byte.x01; Byte.x02];
     blob_type := "audio/webm" |}.

Definition refused : list Event := [ClickRecord; UserMedia 0 false].

(** The chunks a recorder's last [dataavailable] adds. *)
Definition kept (data : Blob) : list Blob :=
  if size data >? 0 then [data] else [].

End MediaUploaderTraces.

(** ** MediaUploader: the time label *)

Module MediaLabels.

(** [String(n)] for an integer [n]. *)
Definition toString (n : Z) : string := NilZero.string_of_int (Z.to_int n).

Fixpoint pad_chars (n : nat) (pad : ascii) (s : string) : string :=
  match n with
  | O => s
  | S n' => String pad (pad_chars n' pad s)
  end.

(** [s.padStart(targetLength, pad)] for a one-character [pad]. *)
Definition padStart (targetLength : nat) (pad : ascii) (s : string) : string :=
  pad_chars (targetLength - String.length s) pad s.

(** [formatTime]: [Math.floor(seconds / 60)] is the floored quotient, [%]
    the remainder with the sign of the dividend.  [seconds] is a whole
    number; the source computes on doubles, with which this agrees as long
    as the number is small (the widget only ever shows 0 to 30; the
    properties below stay under one hour). *)
Definition formatTime (seconds : Z) : string :=
  let mins := seconds / 60 in
  let secs := Z.rem seconds 60 in
  (toString mins ++ ":" ++ padStart 2 "0" (toString secs))%string.

(** Reading a label back: the text before the first colon as minutes, the
    text after it as seconds. *)
Fixpoint split_colon (s : string) : option (string * string) :=
  match s with
  | EmptyString => None
  | String c s' =>
      if Ascii.eqb c ":" then Some (EmptyString, s')
      else match split_colon s' with
           | Some (a, b) => Some (String c a, b)
           | None => None
           end
  end.

Definition read_number (s : string) : option Z :=
  option_map Z.of_int (NilZero.int_of_string s).

Definition read_time (s : string) : option Z :=
  match split_colon s with
  | Some (m, r) =>
      match read_number m, read_number r with
      | Some a, Some b => Some (a * 60 + b)
      | _, _ => None
      end
  | None => None
  end.

Fixpoint no_colon (s : string) : bool :=
  match s with
  | EmptyString => true
  | String c s' => negb (Ascii.eqb c ":") && no_colon s'
  end.

(** The shape ["0:dd"] of a label. *)
Definition zero_minutes_two_digits (s : string) : bool :=
  match s with
  | String "0" (String ":" (String d1 (String d2 EmptyString))) =>
      (Nat.leb 48 (nat_of_ascii d1) && Nat.leb (nat_of_ascii d1) 57) &&
      (Nat.leb 48 (nat_of_ascii d2) && Nat.leb (nat_of_ascii d2) 57)
  | _ => false
  end.

End MediaLabels.

(** ** MediaUploader: the photo handlers *)

Module MediaPhotos.
Section Photos.
Variable File : Type.

Inductive Effect : Type :=
| OnPhotosChange (files : list File)   (* the callback prop *)
| ResetInput.                          (* e.target.value = '' *)

(** [array.splice(start, 1)]: a negative [start] counts from the end, one
    at or past the end removes nothing. *)
Definition splice1 (start : Z) (l : list File) : list File :=
  let len := Z.of_nat (length l) in
  let from := if start <? 0 then Z.max (len + start) 0 else Z.min start len in
  delete (Z.to_nat from) l.

(** [handlePhotoSelect]; [files] is [e.target.files], which may be null. *)
Definition handlePhotoSelect (files : option (list File)) (photos : list File)
  : list Effect :=
  match files with
  | Some newPhotos => [OnPhotosChange (photos ++ newPhotos); ResetInput]
  | None => []
  end.

Definition handleCameraCapture (files : option (list File)) (photos : list File)
  : list Effect :=
  match files with
  | Some (newPhoto :: _) => [OnPhotosChange (photos ++ [newPhoto]); ResetInput]
  | _ => []
  end.

(** [removePhoto]: the splice is done on a copy of the prop. *)
Definition removePhoto (index : Z) (photos : list File) : list Effect :=
  [OnPhotosChange (splice1 index photos)].

End Photos.

Arguments OnPhotosChange {File} files.
Arguments ResetInput {File}.
Arguments splice1 {File} start l.
Arguments handlePhotoSelect {File} files photos.
Arguments handleCameraCapture {File} files photos.
Arguments removePhoto {File} index photos.

End MediaPhotos.

(** ** MediaUploader: playing the voice note *)

Module MediaPlayback.
Import MediaUploader.

#[local] Open Scope handler_scope.

(** The whole widget: the recorder's state, the ref to the [Audio] being
    played, and on the platform's side the [Audio] objects created so far
    (numbered in order) and those that are sounding. *)
Record PState : Set :=
  { widget : State;
    audioPlayerRef : option nat;
    created : nat;
    sounding : list nat }.

Inductive PEffect : Set :=
| Widget (e : Effect)                  (* a call made by the recorder *)
| CreateObjectURL (blob : Blob)
| AudioPlay (a : nat)
| AudioPause (a : nat).

Definition pinit : PState :=
  {| widget := init; audioPlayerRef := None; created := 0%nat;
     sounding := [] |}.

Definition set_widget (w : State) (ps : PState) : PState :=
  {| widget := w; audioPlayerRef := audioPlayerRef ps;
     created := created ps; sounding := sounding ps |}.

Definition set_audioPlayerRef (r : option nat) (ps : PState) : PState :=
  {| widget := widget ps; audioPlayerRef := r;
     created := created ps; sounding := sounding ps |}.

Definition set_created (n : nat) (ps : PState) : PState :=
  {| widget := widget ps; audioPlayerRef := audioPlayerRef ps;
     created := n; sounding := sounding ps |}.

Definition set_sounding (l : list nat) (ps : PState) : PState :=
  {| widget := widget ps; audioPlayerRef := audioPlayerRef ps;
     created := created ps; sounding := l |}.

Definition PH := Handler PState PEffect.

(** A handler of the recorder, run on the whole widget. *)
Definition lift (h : H) : PH :=
  fun ps => let '(w, out) := h (widget ps) in
            (set_widget w ps, List.map Widget out).

(** [audio.pause()] *)
Definition audio_pause (a : nat) : PH :=
  emit (AudioPause a) ;;
  modify (fun ps =>
    set_sounding (List.filter (fun b => negb (Nat.eqb b a)) (sounding ps)) ps).

(** [audio.play()] *)
Definition audio_play (a : nat) : PH :=
  emit (AudioPlay a) ;;
  modify (fun ps => set_sounding (sounding ps ++ [a]) ps).

Definition playAudio : PH :=
  fun ps =>
    match audioBlob (widget ps) with
    | Some blob =>
        match audioPlayerRef ps with
        | Some a =>
            (audio_pause a ;;
             modify (set_audioPlayerRef None) ;;
             lift (setIsPlaying false)) ps
        | None =>
            let a := created ps in
            (emit (CreateObjectURL blob) ;;
             modify (set_created (S a)) ;;
             modify (set_audioPlayerRef (Some a)) ;;
             audio_play a ;;
             lift (setIsPlaying true)) ps
        end
    | None => skip ps
    end.

(** [audio.onended] *)
Definition onended : PH :=
  lift (setIsPlaying false) ;;
  modify (set_audioPlayerRef None).

Inductive PEvent : Set :=
| Recorder (e : Event)       (* anything the recorder part reacts to *)
| ClickPlay
| Ended (a : nat).           (* the [Audio] [a] has played to its end *)

(** The play button is shown while there is a blob; an [Audio] ends only
    while it is sounding. *)
Definition pstep (ps : PState) (e : PEvent) : option (PState * list PEffect) :=
  match e with
  | Recorder e' =>
      match step (widget ps) e' with
      | Some (w, out) => Some (set_widget w ps, List.map Widget out)
      | None => None
      end
  | ClickPlay =>
      match audioBlob (widget ps) with
      | Some _ => Some (playAudio ps)
      | None => None
      end
  | Ended a =>
      if existsb (Nat.eqb a) (sounding ps)
      then Some ((modify (fun ps =>
                    set_sounding
                      (List.filter (fun b => negb (Nat.eqb b a)) (sounding ps))
                      ps) ;;
                  onended) ps)
      else None
  end.

Fixpoint prun (ps : PState) (es : list PEvent) : option (PState * list PEffect) :=
  match es with
  | [] => Some (ps, [])
  | e :: es' =>
      match pstep ps e with
      | None => None
      | Some (s1, o1) =>
          match prun s1 es' with
          | None => None
          | Some (s2, o2) => Some (s2, o1 ++ o2)
          end
      end
  end.

(** At most the [Audio] held by the ref is sounding, and the play icon is
    only in its "playing" form while that one sounds. *)
(** The widget holding a voice note, nothing playing. *)
Definition with_note (blob : Blob) : PState :=
  set_widget (set_audioBlob (Some blob) init) pinit.

(** The same while the first [Audio] made from the note is sounding. *)
Definition playing_note (blob : Blob) : PState :=
  {| widget := set_isPlaying true (set_audioBlob (Some blob) init);
     audioPlayerRef := Some 0%nat; created := 1%nat; sounding := [0%nat] |}.


End MediaPlayback.

(** ** Properties of the map picker *)

Module MapPickerProofs.
Import MapPicker.

Ltac run_handlers :=
  cbv [seq skip emit modify when whenS
       setMapLoaded setMapError setIsLocating setManualFallbackUsed
       getCurrentPosition initializeMap updateMarker handleMapClick
       handleManualSelect handleGeolocation success error locateOnMount
       handleFallbackLocation answered onClick
       set_mounted set_location set_map_current set_marker_current
       set_mapLoaded set_mapError set_isLocating set_manualFallbackUsed
       set_outstanding] in *.

Ltac split_state s :=
  destruct s as [? ? ? ? ? ? ? ? ?]; cbn [mounted location map_current
    marker_current mapLoaded mapError isLocating manualFallbackUsed outstanding
    set_mounted set_location set_map_current set_marker_current set_mapLoaded
    set_mapError set_isLocating set_manualFallbackUsed set_outstanding] in *.

(** Case analysis on everything a handler branches on. *)
Ltac crunch :=
  repeat (cbn in *; simplify_eq; try case_match).

Section Invariant.
Variable env : Platform.

Lemma handleGeolocation_outstanding showError hi s :
  outstanding (fst (handleGeolocation env showError hi s)) =
  if geolocation env then
    outstanding s ++ [{| cb_showError := showError; cb_enableHighAccuracy := hi |}]
  else outstanding s.
Proof.
  run_handlers. destruct (geolocation env); cbn.
  - reflexivity.
  - destruct showError; cbn; destruct (map_current s); reflexivity.
Qed.

Lemma step_calls_need_provider s e s' out :
  step env s e = Some (s', out) ->
  calls_need_provider env s -> calls_need_provider env s'.
Proof.
  unfold calls_need_provider. intros Hstep Hinv.
  destruct (geolocation env) eqn:Hg; [right; reflexivity|].
  left. destruct Hinv as [Hinv|]; [|discriminate].
  destruct e; cbn [step] in Hstep;
    try (rewrite Hinv, lookup_nil in Hstep; discriminate);
    try destruct b; split_state s; run_handlers; rewrite ?Hg in Hstep;
    crunch; reflexivity.
Qed.

Lemma run_calls_need_provider es : forall s s' out,
  run env s es = Some (s', out) ->
  calls_need_provider env s -> calls_need_provider env s'.
Proof.
  induction es as [|e es IH]; intros s s' out Hrun Hinv; cbn in Hrun.
  - inversion Hrun; subst. assumption.
  - destruct (step env s e) as [[s1 o1]|] eqn:Hstep; [|discriminate].
    destruct (run env s1 es) as [[s2 o2]|] eqn:Hrest; [|discriminate].
    inversion Hrun; subst.
    eapply IH; [eassumption|]. eapply step_calls_need_provider; eassumption.
Qed.

Lemma reachable_calls_need_provider s :
  reachable env s -> calls_need_provider env s.
Proof.
  intros (l & es & out & Hrun).
  eapply run_calls_need_provider; [eassumption|]. left. reflexivity.
Qed.

End Invariant.

Lemma outstanding_provider env s i cb :
  reachable env s -> outstanding s !! i = Some cb -> geolocation env = true.
Proof.
  intros Hr Hi. destruct (reachable_calls_need_provider env s Hr) as [Hnil|Hg].
  - rewrite Hnil, lookup_nil in Hi. discriminate.
  - exact Hg.
Qed.

Lemma mount_reachable env l s out :
  step env (init l) Mount = Some (s, out) -> reachable env s.
Proof.
  intros Hstep. exists l, [Mount], out. cbn [run]. rewrite Hstep.
  rewrite app_nil_r. reflexivity.
Qed.

Lemma locating_reachable : reachable browser locating.
Proof. eapply (mount_reachable browser None). reflexivity. Qed.

(** C1: a high-accuracy attempt that fails with code 3 is followed by
    exactly one call with high accuracy off (and nothing else), and whatever
    answer that retry gets, its closures make no further call. *)
Theorem timeout_retries_exactly_once env s i cb :
  reachable env s ->
  outstanding s !! i = Some cb ->
  cb_enableHighAccuracy cb = true ->
  exists s',
    step env s (PositionError i 3) =
      Some (s', [GetCurrentPosition retry_options]) /\
    outstanding s' = delete i (outstanding s) ++ [retry_of cb] /\
    cb_enableHighAccuracy (retry_of cb) = false /\
    forall t j r t' out',
      outstanding t !! j = Some (retry_of cb) ->
      step env t (answer j r) = Some (t', out') ->
      requests out' = [].
Proof.
  intros Hr Hi Hhi. pose proof (outstanding_provider env s i cb Hr Hi) as Hg.
  eexists. split; [|split; [|split]].
  - cbn [step]. rewrite Hi. run_handlers. rewrite Hhi, Hg. cbn. reflexivity.
  - cbn. reflexivity.
  - reflexivity.
  - intros t j r t' out' Hj Hstep. destruct r as [? ?|?]; cbn [answer step] in Hstep;
      rewrite Hj in Hstep; split_state t; run_handlers; crunch; reflexivity.
Qed.

Lemma timeout_retries_exactly_once_witness :
  exists s',
    step browser locating (PositionError 0 3) =
      Some (s', [GetCurrentPosition retry_options]).
Proof.
  destruct (timeout_retries_exactly_once browser locating 0%nat
              {| cb_showError := false; cb_enableHighAccuracy := true |}
              locating_reachable eq_refl eq_refl)
    as (s' & Hstep & _).
  exists s'. exact Hstep.
Defined.

(** C3: the three transitions that select a coordinate (a positioning
    success, a map click, the static default) call [onLocationSelect] once,
    with the coordinate of that very event; nothing else calls it.  The
    argument is a [Coordinates], never null. *)
Theorem onLocationSelect_once_per_transition env s e s' out :
  step env s e = Some (s', out) ->
  selects out =
    match located_by env e with
    | Some c => [OnLocationSelect c]
    | None => []
    end.
Proof.
  intros Hstep.
  destruct e; cbn [step] in Hstep; try destruct b; split_state s;
    run_handlers; crunch; reflexivity.
Qed.

Lemma onLocationSelect_once_per_transition_witness :
  step browser locating (MapClick 40.0 (-3.7)) =
    Some (locating, [OnLocationSelect tap]) /\
  selects [OnLocationSelect tap] = [OnLocationSelect tap].
Proof.
  split; [reflexivity|].
  exact (onLocationSelect_once_per_transition browser locating
           (MapClick 40.0 (-3.7)) _ _ eq_refl).
Defined.

(** C7: the first call asks for high accuracy with a timeout of 10000 ms,
    the retry after a code-3 failure asks for low accuracy with 20000 ms,
    both with maximumAge 0; and when the first call times out and the retry
    succeeds at a coordinate, that coordinate is delivered once and becomes
    the location. *)
Theorem attempt_options_and_retry_scenario env latitude longitude :
  geolocation env = true ->
  (forall showError s,
      snd (handleGeolocation env showError true s) =
      [GetCurrentPosition first_options]) /\
  (forall cb s,
      cb_enableHighAccuracy cb = true ->
      snd (error env cb 3 s) = [GetCurrentPosition retry_options]) /\
  exists s out,
    run_form env (init None)
      [Mount; PositionError 0 3; PositionSuccess 0 latitude longitude] =
      Some (s, out) /\
    requests out =
      [GetCurrentPosition first_options; GetCurrentPosition retry_options] /\
    selects out =
      [OnLocationSelect {| lat := latitude; lng := longitude |}] /\
    location s = Some {| lat := latitude; lng := longitude |} /\
    isLocating s = false /\
    outstanding s = [].
Proof.
  intros Hg. split; [|split].
  - intros showError s. run_handlers. rewrite Hg. reflexivity.
  - intros cb s Hhi. run_handlers. rewrite Hhi, Hg. reflexivity.
  - destruct env as [g w m d]. cbn in Hg. subst g.
    destruct w, m;
      match goal with
      | |- exists s out, ?r = _ /\ _ =>
          let v := eval vm_compute in r in
          match v with
          | Some (?s0, ?o0) =>
              exists s0, o0; split; [vm_compute; reflexivity|];
              repeat split; vm_compute; reflexivity
          end
      end.
Qed.

Lemma attempt_options_and_retry_scenario_witness :
  exists s out,
    run_form browser (init None)
      [Mount; PositionError 0 3; PositionSuccess 0 31.63 (-7.99)] =
      Some (s, out) /\
    selects out = [OnLocationSelect {| lat := 31.63; lng := -7.99 |}] /\
    location s = Some {| lat := 31.63; lng := -7.99 |}.
Proof.
  destruct (attempt_options_and_retry_scenario browser 31.63 (-7.99) eq_refl)
    as (_ & _ & s & out & Hrun & _ & Hsel & Hloc & _).
  exists s, out. repeat split; assumption.
Defined.

(** C4 as stated fails: without a provider, an explicit press of the GPS
    button raises the alert. *)
Lemma explicit_trigger_without_provider_alerts :
  exists s out,
    run browser_without_gps (init None) [Mount; Click GpsButton] =
      Some (s, out) /\
    alerts out = [Alert] /\
    requests out = [].
Proof. eexists. eexists. split; [reflexivity|]. split; reflexivity. Qed.

(** C4, amended: without a provider no call is made, the locating flag is
    cleared, the coordinate is kept and every button that could be pressed
    can still be pressed; the alert is raised exactly when the trigger asked
    for errors to be shown, which the trigger on mount does not. *)
Theorem provider_absent_fails_without_call env showError hi s :
  geolocation env = false ->
  let r := handleGeolocation env showError hi s in
  requests (snd r) = [] /\
  alerts (snd r) = (if showError then [Alert] else []) /\
  alerts (snd (locateOnMount env s)) = [] /\
  isLocating (fst r) = false /\
  outstanding (fst r) = outstanding s /\
  location (fst r) = location s /\
  forall b, clickable s b = true -> clickable (fst r) b = true.
Proof.
  intros Hg. cbv zeta. unfold locateOnMount, clickable, render.
  split_state s. run_handlers. rewrite Hg. cbn.
  repeat split; try (crunch; reflexivity).
  intros b Hb. destruct b; crunch; congruence.
Qed.

Lemma provider_absent_fails_without_call_witness :
  requests (snd (handleGeolocation browser_without_gps true true (init None))) = [] /\
  alerts (snd (handleGeolocation browser_without_gps true true (init None))) = [Alert] /\
  alerts (snd (handleGeolocation browser_without_gps false true (init None))) = [].
Proof.
  destruct (provider_absent_fails_without_call browser_without_gps true true
              (init None) eq_refl) as (Hreq & Hal & _).
  destruct (provider_absent_fails_without_call browser_without_gps false true
              (init None) eq_refl) as (_ & Hal' & _).
  repeat split; assumption.
Defined.

(** C5 as stated fails: the attempt started on mount fails with code 1 and
    no alert is raised at all. *)
Lemma mount_attempt_fails_silently :
  exists s out,
    run browser (init None) [Mount; PositionError 0 1] = Some (s, out) /\
    alerts out = [] /\
    isLocating s = false /\
    outstanding s = [].
Proof. eexists. eexists. split; [reflexivity|]. repeat split; reflexivity. Qed.

(** C5, amended: an error other than code 3 never starts a call; it clears
    the locating flag, leaves the coordinate and the view alone and raises
    one alert exactly when the attempt was started with errors shown (a
    button press), none when it was started on mount. *)
Theorem other_errors_fail_without_retry env s i cb code :
  outstanding s !! i = Some cb ->
  code <> 3 ->
  exists s' out,
    step env s (PositionError i code) = Some (s', out) /\
    requests out = [] /\
    alerts out = (if cb_showError cb then [Alert] else []) /\
    isLocating s' = false /\
    outstanding s' = delete i (outstanding s) /\
    location s' = location s /\
    render s' = render s.
Proof.
  intros Hi Hcode. cbn [step]. rewrite Hi.
  assert (Hne : (code =? 3) = false) by (apply Z.eqb_neq; exact Hcode).
  destruct s as [mo lo mc mk ml me il mf os], cb as [se hi].
  run_handlers. cbn. rewrite Hne, andb_false_r.
  destruct se, mc; cbn; eexists; eexists;
    (split; [reflexivity|]); repeat split; reflexivity.
Qed.

Lemma other_errors_fail_without_retry_witness :
  exists s' out,
    step browser locating (PositionError 0 1) = Some (s', out) /\
    requests out = [] /\ alerts out = [] /\ isLocating s' = false.
Proof.
  destruct (other_errors_fail_without_retry browser locating 0%nat
              {| cb_showError := false; cb_enableHighAccuracy := true |} 1
              eq_refl ltac:(lia))
    as (s' & out & Hstep & Hreq & Hal & Hloc & _).
  exists s', out. repeat split; assumption.
Defined.

(** Run a list of events on the form and name the result. *)
Ltac evaluate :=
  match goal with
  | |- exists s out, ?r = _ /\ _ =>
      let v := eval vm_compute in r in
      match v with
      | Some (?s0, ?o0) =>
          exists s0, o0; split; [vm_compute; reflexivity|]
      end
  end.

Lemma tap_not_fix : Some fix_ <> Some tap.
Proof.
  intros Heq.
  apply (f_equal (fun o => match o with
                           | Some c => PrimFloat.eqb (lat c) 40.0
                           | None => false
                           end)) in Heq.
  vm_compute in Heq. discriminate.
Qed.

(** C2 as stated fails: the first call is still outstanding when the user
    taps the map; its late failure then clears the locating flag and moves
    the map back to the default centre, and its late success replaces the
    tapped coordinate. *)
Lemma late_callback_changes_state :
  exists s out,
    run_form browser (init None) [Mount; MapLoad; MapClick 40.0 (-3.7)] =
      Some (s, out) /\
    location s = Some tap /\
    isLocating s = true /\
    (exists s',
        step_form browser s (PositionError 0 1) =
          Some (s', [FlyTo centre 11 false]) /\
        isLocating s' = false) /\
    (exists s' out',
        step_form browser s (PositionSuccess 0 31.63 (-7.99)) = Some (s', out') /\
        selects out' = [OnLocationSelect fix_] /\
        location s' = Some fix_ /\
        location s' <> location s).
Proof.
  evaluate. split; [reflexivity|]. split; [reflexivity|]. split.
  - eexists. split; [vm_compute; reflexivity|]. reflexivity.
  - eexists. eexists. split; [vm_compute; reflexivity|].
    split; [reflexivity|]. split; [reflexivity|]. exact tap_not_fix.
Qed.

(** C2, amended: the error closure of any attempt, superseded or not, never
    calls [onLocationSelect] and leaves the coordinate, the marker, the
    fallback flag and the map flags as they are; so a late failure cannot
    change a coordinate chosen in the meantime. *)
Theorem late_failure_keeps_coordinate env s i code s' out :
  step_form env s (PositionError i code) = Some (s', out) ->
  selects out = [] /\
  location s' = location s /\
  marker_current s' = marker_current s /\
  manualFallbackUsed s' = manualFallbackUsed s /\
  mapError s' = mapError s /\
  mapLoaded s' = mapLoaded s.
Proof.
  unfold step_form. cbn [step]. intros Hstep.
  destruct (outstanding s !! i) as [cb|]; [|discriminate].
  destruct s as [mo lo mc mk ml me il mf os], cb as [se hi].
  run_handlers. cbn in Hstep.
  destruct (hi && (code =? 3)), (geolocation env), se, mc; cbn in Hstep;
    injection Hstep as <- <-; repeat split; reflexivity.
Qed.

Lemma late_failure_keeps_coordinate_witness :
  exists s',
    step_form browser (set_location (Some tap) locating) (PositionError 0 1) =
      Some (s', [FlyTo centre 11 false]) /\
    location s' = Some tap.
Proof.
  eexists. split; [vm_compute; reflexivity|].
  exact (proj1 (proj2 (late_failure_keeps_coordinate browser
                         (set_location (Some tap) locating) 0%nat 1 _ _ eq_refl))).
Defined.

(** C6 fails on the code: in the fallback view the "update location" link
    is not disabled while a call is outstanding, so every press adds another
    call to the one started on mount. *)
Theorem updateLoc_presses_overlap :
  exists s out,
    run_form browser_without_webgl (init None)
      [Mount; Click UseDefaultLocButton; Click UpdateLocButton;
       Click UpdateLocButton] = Some (s, out) /\
    requests out =
      [GetCurrentPosition first_options; GetCurrentPosition first_options;
       GetCurrentPosition first_options] /\
    length (outstanding s) = 3%nat.
Proof. evaluate. split; reflexivity. Qed.

Lemma updating_reached :
  run_form browser_without_webgl (init None)
    [Mount; Click UseDefaultLocButton] =
  Some (updating 0, [GetCurrentPosition first_options; OnLocationSelect centre]).
Proof. vm_compute. reflexivity. Qed.

Lemma updateLoc_press k :
  step_form browser_without_webgl (updating k) (Click UpdateLocButton) =
  Some (updating (S k), [GetCurrentPosition first_options]).
Proof.
  unfold step_form, updating. cbn [step]. run_handlers. cbn.
  rewrite <- repeat_cons. reflexivity.
Qed.

(** However often the link is pressed, every press adds an outstanding
    call. *)
Lemma updateLoc_presses_accumulate n : forall k,
  exists out,
    run_form browser_without_webgl (updating k)
      (repeat (Click UpdateLocButton) n) = Some (updating (k + n), out) /\
    length (outstanding (updating (k + n))) = S (k + n).
Proof.
  induction n as [|n IH]; intros k.
  - exists []. rewrite Nat.add_0_r. split; [reflexivity|].
    cbn. rewrite repeat_length. reflexivity.
  - destruct (IH (S k)) as (out & Hrun & Hlen).
    exists ([GetCurrentPosition first_options] ++ out).
    replace (k + S n)%nat with (S k + n)%nat by lia.
    split; [|exact Hlen].
    cbn [repeat run_form]. rewrite updateLoc_press, Hrun. reflexivity.
Qed.

(** The two sibling buttons carry the guard: they cannot be pressed while
    the locating flag is set. *)
Lemma guarded_buttons_disabled_while_locating s :
  isLocating s = true ->
  clickable s GpsButton = false /\ clickable s UseCurrentLocButton = false.
Proof.
  intros Hl. unfold clickable. rewrite Hl.
  destruct (render s); split; reflexivity.
Qed.




(** C9 as stated fails: once the marker exists, a further map click moves
    the marker and does not centre the map. *)
Lemma second_tap_does_not_centre :
  exists s out,
    run_form browser (init None) [Mount; MapLoad; MapClick 31.63 (-7.99)] =
      Some (s, out) /\
    map_current s = true /\ mapLoaded s = true /\
    marker_current s = Some fix_ /\
    exists s',
      step_form browser s (MapClick 40.0 (-3.7)) =
        Some (s', [OnLocationSelect tap; MarkerSetLngLat tap]) /\
      location s' = Some tap /\
      flyTos [OnLocationSelect tap; MarkerSetLngLat tap] = [].
Proof.
  evaluate. repeat (split; [reflexivity|]).
  eexists. split; [vm_compute; reflexivity|]. split; reflexivity.
Qed.

(** C9, amended: with the map created and loaded, every transition to a
    coordinate that differs from the current one puts the marker there
    (created the first time, moved afterwards); the map is centred on the
    coordinate at zoom 16 by a positioning success and when the marker is
    created, and not otherwise. *)
Theorem located_places_marker_and_centres env s e c s' out :
  step_form env s e = Some (s', out) ->
  located_by env e = Some c ->
  location s <> Some c ->
  map_current s = true ->
  mapLoaded s = true ->
  location s' = Some c /\
  marker_current s' = Some c /\
  markers out =
    [match marker_current s with
     | None => NewMarker c
     | Some _ => MarkerSetLngLat c
     end] /\
  flyTos out =
    (if is_success e then [FlyTo c 16 true] else []) ++
    (match marker_current s with
     | None => [FlyTo c 16 true]
     | Some _ => []
     end).
Proof.
  unfold step_form. intros Hstep Hc _ Hmap Hloaded.
  destruct s as [mo lo mc mk ml me il mf os]. cbn in Hmap, Hloaded. subst mc ml.
  destruct e as [| |x y|w|b|j x y|j code|l]; try destruct b;
    cbn [located_by] in Hc; try discriminate Hc; injection Hc as <-;
    cbn [step] in Hstep; run_handlers.
  all: unfold clickable, render in Hstep; crunch; repeat split; reflexivity.
Qed.

Lemma shown_after_tap :
  run browser (init None) [Mount; MapLoad; LocationProp (Some tap)] =
  Some (MapPickerTraces.shown,
        [GetCurrentPosition first_options; NewMarker tap; FlyTo tap 16 true]).
Proof. vm_compute. reflexivity. Qed.

Lemma fix_not_tap : Some tap <> Some fix_.
Proof. intros Heq. symmetry in Heq. exact (tap_not_fix Heq). Qed.

Lemma located_places_marker_and_centres_witness :
  reachable browser MapPickerTraces.shown /\
  exists s' out,
    step_form browser MapPickerTraces.shown
      (PositionSuccess 0 31.63 (-7.99)) = Some (s', out) /\
    marker_current s' = Some fix_ /\
    markers out = [MarkerSetLngLat fix_] /\
    flyTos out = [FlyTo fix_ 16 true].
Proof.
  split; [exists None; eexists; eexists; exact shown_after_tap|].
  eexists. eexists. split; [vm_compute; reflexivity|].
  destruct (located_places_marker_and_centres browser MapPickerTraces.shown
              (PositionSuccess 0 31.63 (-7.99)) fix_ _ _
              eq_refl eq_refl fix_not_tap eq_refl eq_refl)
    as (_ & Hm & Hk & Hf).
  split; [exact Hm|]. split; [exact Hk|exact Hf].
Defined.

End MapPickerProofs.

(** ** Properties of the recorder *)

Module MediaUploaderProofs.
Import MediaUploader.

Ltac run_handlers :=
  cbv [seq skip emit modify when whenS
       setIsRecording setRecordingTime setIsPlaying clearInterval
       recorder_stop stopRecording tick startRecording
       startRecording_granted startRecording_denied ondataavailable onstop
       deleteAudio find_interval
       set_audioBlob set_isRecording set_recordingTime set_isPlaying
       set_recorders set_mediaRecorderRef set_audioChunksRef set_timerRef
       set_intervals set_awaiting
       audioBlob isRecording recordingTime isPlaying recorders
       mediaRecorderRef audioChunksRef timerRef intervals next_interval
       awaiting] in *.

Lemma start_recording :
  run init [ClickRecord; UserMedia 0 true] =
  Some (recording_at 0, [GetUserMedia; RecorderStart 0; SetInterval 1]).
Proof. vm_compute. reflexivity. Qed.

Lemma tick_recording_at t :
  step (recording_at t) (Tick 1) =
  Some (recording_at (if t >=? 30 then 30 else t + 1), []).
Proof.
  cbn [step]. run_handlers. cbn.
  destruct (t >=? 30); reflexivity.
Qed.

Lemma ticks_recording_at n : forall t,
  0 <= t <= 30 ->
  run (recording_at t) (repeat (Tick 1) n) =
  Some (recording_at (Z.min (t + Z.of_nat n) 30), []).
Proof.
  induction n as [|n IH]; intros t Ht.
  - cbn [repeat run]. rewrite Z.add_0_r, Z.min_l by lia. reflexivity.
  - cbn [repeat run]. rewrite tick_recording_at.
    destruct (Z.geb_spec t 30) as [Hge|Hlt].
    + rewrite IH by lia. cbn [app].
      rewrite !Z.min_r by lia. reflexivity.
    + rewrite IH by lia. cbn [app].
      replace (t + 1 + Z.of_nat n) with (t + Z.of_nat (S n)) by lia.
      reflexivity.
Qed.

Lemma run_app es1 : forall es2 s s1 o1 s2 o2,
  run s es1 = Some (s1, o1) ->
  run s1 es2 = Some (s2, o2) ->
  run s (es1 ++ es2) = Some (s2, o1 ++ o2).
Proof.
  induction es1 as [|e es1 IH]; intros es2 s s1 o1 s2 o2 H1 H2.
  - cbn in H1. injection H1 as <- <-. exact H2.
  - cbn [run app] in *.
    destruct (step s e) as [[s' o']|]; [|discriminate].
    destruct (run s' es1) as [[s'' o'']|] eqn:Hrest; [|discriminate].
    injection H1 as <- <-.
    rewrite (IH es2 s' s'' o'' s2 o2 Hrest H2).
    rewrite app_assoc. reflexivity.
Qed.

(** C10 fails on the code: started from the idle widget with the microphone
    granted, and for any number of ticks, the recording is never stopped by
    the timer.  The displayed time stays at most 30, but the recorder keeps
    recording, the interval keeps running, [stop()] is never called and
    [onAudioChange] is never invoked. *)
Theorem timer_never_stops_recorder (n : nat) :
  exists s out,
    run init ([ClickRecord; UserMedia 0 true] ++ repeat (Tick 1) n) =
      Some (s, out) /\
    recordingTime s = Z.min (Z.of_nat n) 30 /\
    recorders s = [Recording] /\
    isRecording s = true /\
    intervals s = [{| iv_id := 1; iv_isRecording := false |}] /\
    recorder_stops out = [] /\
    audio_changes out = [].
Proof.
  exists (recording_at (Z.min (Z.of_nat n) 30)),
         ([GetUserMedia; RecorderStart 0; SetInterval 1] ++ []).
  split.
  - eapply run_app; [exact start_recording|].
    rewrite ticks_recording_at by lia. reflexivity.
  - repeat split; reflexivity.
Qed.

(** The same callback with a [stopRecording] that saw [isRecording = true]
    would stop the recorder at 30 and clear the interval: the guard on the
    captured flag is all that keeps the timer from stopping it. *)
Lemma tick_with_fresh_flag_stops :
  exists s,
    tick {| iv_id := 1; iv_isRecording := true |} (recording_at 30) =
      (s, [RecorderStop 0; ClearInterval 1]) /\
    recorders s = [Stopping] /\ isRecording s = false /\ intervals s = [].
Proof. eexists. split; [vm_compute; reflexivity|]. repeat split; reflexivity. Qed.

(** Pressing the button while recording does stop the recorder, and the
    chunks then reach [onAudioChange] as one blob, once. *)
Lemma manual_stop_delivers_once data :
  size data > 0 ->
  exists s,
    run (recording_at 5) [ClickRecord; RecorderStopped 0 data] =
      Some (s, [RecorderStop 0; ClearInterval 1;
                OnAudioChange (Some (new_Blob [data] "audio/webm"));
                TracksStop 0]) /\
    recorders s = [Inactive] /\ isRecording s = false /\ intervals s = [].
Proof.
  intros Hsize. cbn [run step]. run_handlers. cbn.
  destruct (Z.gtb_spec (size data) 0) as [_|Hle]; [|lia].
  eexists. split; [reflexivity|]. repeat split; reflexivity.
Qed.

Lemma seq_keeps_time h1 h2 :
  keeps_time h1 -> keeps_time h2 -> keeps_time (seq h1 h2).
Proof.
  intros K1 K2 s. unfold seq.
  specialize (K1 s). destruct (h1 s) as [s1 o1].
  specialize (K2 s1). destruct (h2 s1) as [s2 o2].
  cbn [fst] in *. congruence.
Qed.

Lemma emit_keeps_time e : keeps_time (emit e).
Proof. intros s. reflexivity. Qed.

Lemma recorder_stop_keeps_time r : keeps_time (recorder_stop r).
Proof.
  intros s. unfold recorder_stop.
  destruct (recorders s !! r) as [[| |]|]; reflexivity.
Qed.

Lemma clearInterval_keeps_time id : keeps_time (clearInterval id).
Proof. intros s. reflexivity. Qed.

Lemma stopRecording_keeps_time b : keeps_time (stopRecording b).
Proof.
  intros s. unfold stopRecording.
  destruct (mediaRecorderRef s) as [r|]; [|reflexivity].
  destruct b; [|reflexivity].
  apply seq_keeps_time; [apply recorder_stop_keeps_time|].
  apply seq_keeps_time; [intros t; reflexivity|].
  intros t. destruct (timerRef t) as [id|]; [|reflexivity].
  destruct (id =? 0); [reflexivity|apply clearInterval_keeps_time].
Qed.

Lemma startRecording_keeps_time b : keeps_time (startRecording b).
Proof. intros s. reflexivity. Qed.

Lemma ondataavailable_keeps_time data : keeps_time (ondataavailable data).
Proof.
  intros s. unfold ondataavailable. destruct (size data >? 0); reflexivity.
Qed.

Lemma onstop_keeps_time r : keeps_time (onstop r).
Proof. intros s. reflexivity. Qed.

Lemma tick_time iv s :
  recordingTime (fst (tick iv s)) =
  if recordingTime s >=? 30 then 30 else recordingTime s + 1.
Proof.
  unfold tick. cbv zeta. destruct (recordingTime s >=? 30); [|reflexivity].
  unfold seq. destruct (stopRecording (iv_isRecording iv) s) as [s1 o1].
  reflexivity.
Qed.

(** Every step keeps the displayed time between 0 and 30. *)
Lemma step_time_in_range s e s' out :
  step s e = Some (s', out) -> time_in_range s -> time_in_range s'.
Proof.
  unfold time_in_range. intros Hstep Ht.
  destruct e as [|i granted|id|r data| |b]; cbn [step] in Hstep.
  - destruct (audioBlob s); [discriminate|]. injection Hstep as Hstep.
    apply (f_equal (fun p => recordingTime (fst p))) in Hstep.
    cbn [fst] in Hstep. rewrite <- Hstep.
    destruct (isRecording s);
      [rewrite stopRecording_keeps_time|rewrite startRecording_keeps_time];
      exact Ht.
  - destruct (awaiting s !! i) as [b|]; [|discriminate].
    injection Hstep as Hstep.
    apply (f_equal (fun p => recordingTime (fst p))) in Hstep.
    cbn [fst] in Hstep. rewrite <- Hstep.
    destruct granted; [cbn; lia|]. cbn. exact Ht.
  - destruct (find_interval id s) as [iv|]; [|discriminate].
    injection Hstep as Hstep.
    apply (f_equal (fun p => recordingTime (fst p))) in Hstep.
    cbn [fst] in Hstep. rewrite <- Hstep, tick_time.
    destruct (Z.geb_spec (recordingTime s) 30); lia.
  - destruct (recorders s !! r) as [[| |]|]; try discriminate.
    injection Hstep as Hstep.
    apply (f_equal (fun p => recordingTime (fst p))) in Hstep.
    cbn [fst] in Hstep. rewrite <- Hstep.
    rewrite seq_keeps_time; [exact Ht|intros t; reflexivity|].
    apply seq_keeps_time;
      [apply ondataavailable_keeps_time|apply onstop_keeps_time].
  - destruct (audioBlob s); [|discriminate].
    injection Hstep as <- <-. cbn. lia.
  - injection Hstep as <- <-. exact Ht.
Qed.

Lemma run_time_in_range es : forall s s' out,
  run s es = Some (s', out) -> time_in_range s -> time_in_range s'.
Proof.
  induction es as [|e es IH]; intros s s' out Hrun Ht; cbn in Hrun.
  - injection Hrun as <- <-. exact Ht.
  - destruct (step s e) as [[s1 o1]|] eqn:Hstep; [|discriminate].
    destruct (run s1 es) as [[s2 o2]|] eqn:Hrest; [|discriminate].
    injection Hrun as <- <-.
    eapply IH; [exact Hrest|]. eapply step_time_in_range; eassumption.
Qed.

(** The part of C10 that holds: whatever happens, the displayed recording
    time never exceeds 30. *)
Lemma displayed_time_bounded es s out :
  run init es = Some (s, out) -> 0 <= recordingTime s <= 30.
Proof.
  intros Hrun. eapply run_time_in_range; [exact Hrun|].
  unfold time_in_range. cbn. lia.
Qed.

End MediaUploaderProofs.

(** ** Further properties of the map picker *)

Module MapPickerMore.
Import MapPicker MapPickerTraces.

Ltac run_handlers := MapPickerProofs.run_handlers.
Ltac split_state s := MapPickerProofs.split_state s.
Ltac crunch := MapPickerProofs.crunch.

Section Runs.
Variable env : Platform.

(** What every step keeps, every run keeps. *)
Lemma run_keeps (P : State -> Prop) :
  (forall s e s' out, step env s e = Some (s', out) -> P s -> P s') ->
  forall es s s' out, run env s es = Some (s', out) -> P s -> P s'.
Proof.
  intros Hstep es. induction es as [|e es IH]; intros s s' out Hrun HP.
  - cbn in Hrun. injection Hrun as <- _. exact HP.
  - cbn [run] in Hrun.
    destruct (step env s e) as [[s1 o1]|] eqn:H1; [|discriminate].
    destruct (run env s1 es) as [[s2 o2]|] eqn:H2; [|discriminate].
    injection Hrun as <- _. eapply IH; [exact H2|]. eapply Hstep; eassumption.
Qed.

Lemma step_marker_in_sync s e s' out :
  step env s e = Some (s', out) -> marker_in_sync s -> marker_in_sync s'.
Proof.
  unfold marker_in_sync. intros Hstep Hinv.
  destruct e; cbn [step] in Hstep; try destruct b; split_state s;
    run_handlers; crunch; try reflexivity; try congruence;
    intros; simplify_eq; try reflexivity;
    try (symmetry; apply Hinv; reflexivity);
    try (apply Hinv; reflexivity).
Qed.

(** X1: in every state the picker can reach, once the map is created and
    loaded, the marker is at the coordinate of the [location] prop. *)
Theorem marker_follows_location s l :
  reachable env s ->
  map_current s = true -> mapLoaded s = true ->
  location s = Some l ->
  marker_current s = Some l.
Proof.
  intros (l0 & es & out & Hrun) Hmap Hloaded Hloc.
  refine (run_keeps marker_in_sync step_marker_in_sync es _ _ _ Hrun _
            Hmap Hloaded l Hloc).
  unfold marker_in_sync. cbn. discriminate.
Qed.

(** X2: no step removes the marker, not even the parent passing a null
    [location]. *)
Theorem marker_never_removed s e s' out c :
  step env s e = Some (s', out) ->
  marker_current s = Some c ->
  exists c', marker_current s' = Some c'.
Proof.
  intros Hstep Hm.
  destruct e; cbn [step] in Hstep; try destruct b; split_state s;
    run_handlers; crunch; eexists; reflexivity.
Qed.

Lemma step_mapError s e s' out :
  step env s e = Some (s', out) -> mapError s = true -> mapError s' = true.
Proof.
  intros Hstep Hm.
  destruct e; cbn [step] in Hstep; try destruct b; split_state s;
    run_handlers; crunch; reflexivity.
Qed.

(** X3: the fallback view is permanent: once [mapError] is set, no run
    clears it, so the map view is never rendered again. *)
Theorem fallback_is_permanent es s s' out :
  run env s es = Some (s', out) ->
  mapError s = true ->
  mapError s' = true /\ render s' <> MapView.
Proof.
  intros Hrun Hm.
  assert (He : mapError s' = true)
    by exact (run_keeps (fun t => mapError t = true) step_mapError
                es s s' out Hrun Hm).
  split; [exact He|]. unfold render. rewrite He.
  destruct (_ && _); discriminate.
Qed.

Lemma step_locating_is_pending s e s' out :
  step env s e = Some (s', out) ->
  locating_is_pending s -> locating_is_pending s'.
Proof.
  unfold locating_is_pending. intros Hstep Hinv.
  destruct e; cbn [step] in Hstep; try destruct b; split_state s;
    run_handlers; crunch; try discriminate; try assumption;
    try (intros _ Hnil; apply app_eq_nil in Hnil;
         destruct Hnil as [_ Hnil]; discriminate Hnil).
Qed.

(** X4: in every reachable state in which [isLocating] is set, a
    positioning call is outstanding whose answer will clear it. *)
Theorem locating_has_pending_call s :
  reachable env s -> isLocating s = true -> outstanding s <> [].
Proof.
  intros (l0 & es & out & Hrun).
  refine (run_keeps locating_is_pending step_locating_is_pending es _ _ _
            Hrun _).
  unfold locating_is_pending. cbn. discriminate.
Qed.

(** How one step changes the list of outstanding calls, and which calls it
    makes. *)
Lemma step_calls s e s' out :
  step env s e = Some (s', out) ->
  match e with
  | PositionSuccess i _ _ | PositionError i _ =>
      exists cb, outstanding s !! i = Some cb /\
        ((outstanding s' = delete i (outstanding s) /\ requests out = []) \/
         (cb_enableHighAccuracy cb = true /\
          outstanding s' = delete i (outstanding s) ++ [retry_of cb] /\
          requests out = [GetCurrentPosition retry_options]))
  | _ =>
      (outstanding s' = outstanding s /\ requests out = []) \/
      (is_trigger e = true /\
       outstanding s' =
         outstanding s ++
         [{| cb_showError := is_click e; cb_enableHighAccuracy := true |}] /\
       requests out = [GetCurrentPosition first_options])
  end.
Proof.
  intros Hstep.
  destruct e as [| |x y|w|b|i x y|i code|l]; cbn [step] in Hstep.
  6,7: destruct (outstanding s !! i) as [cb|] eqn:Hi; [|discriminate];
       exists cb; split; [reflexivity|]; destruct cb as [se [|]].
  5: destruct b.
  all: split_state s; run_handlers; crunch;
    first [ left; split; reflexivity
          | right; repeat split; reflexivity ].
Qed.

Lemma high_accuracy_pending_app l cb :
  high_accuracy_pending (l ++ [cb]) =
  (high_accuracy_pending l + (if cb_enableHighAccuracy cb then 1 else 0))%nat.
Proof.
  unfold high_accuracy_pending. rewrite List.filter_app, length_app. cbn.
  destruct (cb_enableHighAccuracy cb); reflexivity.
Qed.

Lemma high_accuracy_pending_delete l : forall i cb,
  l !! i = Some cb ->
  high_accuracy_pending l =
  (high_accuracy_pending (delete i l) +
   (if cb_enableHighAccuracy cb then 1 else 0))%nat.
Proof.
  unfold high_accuracy_pending.
  induction l as [|a l IH]; intros [|i] cb Hi; try discriminate.
  - injection Hi as ->. cbn. destruct (cb_enableHighAccuracy cb); cbn; lia.
  - cbn in Hi. cbn. specialize (IH i cb Hi).
    destruct (cb_enableHighAccuracy a); cbn; [f_equal|]; exact IH.
Qed.

Lemma step_budget s e s' out :
  step env s e = Some (s', out) ->
  (length (requests out) + high_accuracy_pending (outstanding s') <=
   high_accuracy_pending (outstanding s) +
   2 * (if is_trigger e then 1 else 0))%nat.
Proof.
  intros Hstep. pose proof (step_calls s e s' out Hstep) as Hc.
  destruct e as [| |x y|w|b|i x y|i code|l].
  6,7: destruct Hc as (cb & Hi & [[-> ->]|(Hhi & -> & ->)]);
       rewrite (high_accuracy_pending_delete _ _ _ Hi);
       rewrite ?high_accuracy_pending_app; cbn;
       rewrite ?Hhi; destruct (cb_enableHighAccuracy cb); lia.
  all: destruct Hc as [[-> ->]|(Ht & -> & ->)];
    rewrite ?high_accuracy_pending_app, ?Ht; cbn; lia.
Qed.

Lemma requests_app o1 o2 : requests (o1 ++ o2) = requests o1 ++ requests o2.
Proof. apply List.filter_app. Qed.

Lemma alerts_app o1 o2 : alerts (o1 ++ o2) = alerts o1 ++ alerts o2.
Proof. apply List.filter_app. Qed.

Lemma run_budget es : forall s s' out,
  run env s es = Some (s', out) ->
  (length (requests out) + high_accuracy_pending (outstanding s') <=
   high_accuracy_pending (outstanding s) +
   2 * count_events is_trigger es)%nat.
Proof.
  unfold count_events.
  induction es as [|e es IH]; intros s s' out Hrun; cbn [run] in Hrun.
  - injection Hrun as <- <-. cbn. lia.
  - destruct (step env s e) as [[s1 o1]|] eqn:H1; [|discriminate].
    destruct (run env s1 es) as [[s2 o2]|] eqn:H2; [|discriminate].
    injection Hrun as <- <-.
    pose proof (step_budget _ _ _ _ H1). pose proof (IH _ _ _ H2).
    rewrite requests_app, length_app. cbn [List.filter].
    destruct (is_trigger e); cbn [length]; lia.
Qed.

(** X5: the retry policy is bounded over whole runs: from the initial state
    the picker never makes more than two positioning calls per trigger (the
    mount effect and each press of an acquisition button). *)
Theorem at_most_two_calls_per_trigger l es s out :
  run env (init l) es = Some (s, out) ->
  (length (requests out) <= 2 * count_events is_trigger es)%nat.
Proof.
  intros Hrun. pose proof (run_budget es _ _ _ Hrun) as Hb.
  cbn in Hb. lia.
Qed.

Lemma step_silent s e s' out :
  step env s e = Some (s', out) ->
  is_click e = false ->
  all_silent (outstanding s) ->
  alerts out = [] /\ all_silent (outstanding s').
Proof.
  unfold all_silent. intros Hstep Hclick Hall. split.
  - destruct e as [| |x y|w|b|i x y|i code|l]; try discriminate Hclick;
      cbn [step] in Hstep.
    5,6: destruct (outstanding s !! i) as [cb|] eqn:Hi; [|discriminate];
         pose proof (Forall_lookup_1 _ _ _ _ Hall Hi) as Hse;
         destruct cb as [se hi]; cbn in Hse; subst se.
    all: split_state s; run_handlers; crunch; reflexivity.
  - pose proof (step_calls s e s' out Hstep) as Hc.
    destruct e as [| |x y|w|b|i x y|i code|l]; try discriminate Hclick.
    5,6: destruct Hc as (cb & Hi & [[-> _]|(_ & -> & _)]);
         [apply Forall_delete; exact Hall|];
         apply Forall_app; split; [apply Forall_delete; exact Hall|];
         apply Forall_cons; split; [|apply Forall_nil; exact I];
         exact (Forall_lookup_1 _ _ _ _ Hall Hi).
    all: destruct Hc as [[-> _]|(_ & -> & _)]; [exact Hall|];
      apply Forall_app; split; [exact Hall|];
      apply Forall_cons; split; [reflexivity|apply Forall_nil; exact I].
Qed.

Lemma run_silent es : forall s s' out,
  run env s es = Some (s', out) ->
  Forall (fun e => is_click e = false) es ->
  all_silent (outstanding s) ->
  alerts out = [].
Proof.
  induction es as [|e es IH]; intros s s' out Hrun Hes Hall; cbn [run] in Hrun.
  - injection Hrun as _ <-. reflexivity.
  - destruct (step env s e) as [[s1 o1]|] eqn:H1; [|discriminate].
    destruct (run env s1 es) as [[s2 o2]|] eqn:H2; [|discriminate].
    injection Hrun as _ <-. apply Forall_cons in Hes. destruct Hes as [He Hes].
    destruct (step_silent _ _ _ _ H1 He Hall) as [Ho1 Hall1].
    rewrite alerts_app, Ho1, (IH _ _ _ H2 Hes Hall1). reflexivity.
Qed.

(** X7: as long as no button is pressed, the picker never raises an alert:
    the acquisition started on mount, its retry and all their failures are
    silent, whatever the platform, the map and the parent do. *)
Theorem no_alert_without_button_press l es s out :
  run env (init l) es = Some (s, out) ->
  Forall (fun e => is_click e = false) es ->
  alerts out = [].
Proof.
  intros Hrun Hes. eapply run_silent; [exact Hrun|exact Hes|].
  apply Forall_nil. exact I.
Qed.

(** X8: one turn of the event loop raises an alert or makes a positioning
    call, never both and never more than one: a failure is either retried
    or reported. *)
Theorem step_alerts_or_calls_once s e s' out :
  step env s e = Some (s', out) ->
  (length (alerts out) + length (requests out) <= 1)%nat.
Proof.
  intros Hstep.
  destruct e; cbn [step] in Hstep; try destruct b; split_state s;
    run_handlers; crunch; lia.
Qed.

(** X9: on mount the picker asks for the position exactly when it was given
    no coordinate and the provider exists; it then makes the one
    high-accuracy call.  It never alerts, never calls [onLocationSelect] and
    leaves the coordinate it was given untouched. *)
Theorem mount_locates_only_without_coordinate l :
  exists s out,
    step env (init l) Mount = Some (s, out) /\
    requests out =
      (if geolocation env && negb (bool_decide (is_Some l))
       then [GetCurrentPosition first_options] else []) /\
    alerts out = [] /\
    selects out = [] /\
    location s = l /\
    isLocating s = geolocation env && negb (bool_decide (is_Some l)).
Proof.
  destruct env as [g w m d], l as [c|]; cbn [step init mounted];
    run_handlers; cbn; destruct g, w, m; cbn;
    eexists; eexists; (split; [reflexivity|]); repeat split; reflexivity.
Qed.

(** X10: a positioning success in the fallback view (after a map error)
    switches it to the "located" panel showing that coordinate, once the
    consumer has passed the coordinate back. *)
Theorem success_in_fallback_shows_located s i latitude longitude s' out :
  step_form env s (PositionSuccess i latitude longitude) = Some (s', out) ->
  mapError s = true ->
  render s' = FallbackLocated /\
  location s' = Some {| lat := latitude; lng := longitude |} /\
  isLocating s' = false /\
  manualFallbackUsed s' = true.
Proof.
  unfold step_form, render. intros Hstep Hm. cbn [step] in Hstep.
  destruct (outstanding s !! i) as [cb|]; [|discriminate].
  split_state s. subst. run_handlers.
  destruct map_current0, mapLoaded0, marker_current0; cbn in Hstep;
    run_handlers; cbn in Hstep; injection Hstep as <- _;
    repeat split; reflexivity.
Qed.

(** X11: the manual-selection button does not cancel anything: with a call
    outstanding in the map view and the provider present, pressing it and
    then the GPS button leaves the old call outstanding and adds a new
    one. *)
Theorem manual_select_then_gps_overlaps s :
  mounted s = true -> mapError s = false -> geolocation env = true ->
  exists s' out,
    run env s [Click ManualSelectButton; Click GpsButton] = Some (s', out) /\
    outstanding s' =
      outstanding s ++
      [{| cb_showError := true; cb_enableHighAccuracy := true |}] /\
    requests out = [GetCurrentPosition first_options] /\
    isLocating s' = true.
Proof.
  intros Hmo Hme Hg. split_state s. subst.
  cbn [run step]. unfold clickable, render. cbn. run_handlers. rewrite Hg.
  destruct map_current0; cbn; eexists; eexists;
    (split; [reflexivity|]); repeat split; reflexivity.
Qed.

End Runs.

Lemma shown_reachable : reachable browser shown.
Proof.
  exists None, [Mount; MapLoad; LocationProp (Some tap)],
    [GetCurrentPosition first_options; NewMarker tap; FlyTo tap 16 true].
  vm_compute. reflexivity.
Qed.

Lemma marker_follows_location_witness : marker_current shown = Some tap.
Proof.
  exact (marker_follows_location browser shown tap shown_reachable
           eq_refl eq_refl eq_refl).
Defined.

Lemma marker_never_removed_witness :
  exists c', marker_current (set_location None shown) = Some c'.
Proof.
  exact (marker_never_removed browser shown (LocationProp None)
           (set_location None shown) [] tap eq_refl eq_refl).
Defined.

Lemma fallback_is_permanent_witness :
  mapError (updating 1) = true /\
  render (updating 1) <> MapView.
Proof.
  exact (fallback_is_permanent browser_without_webgl
           [Click UpdateLocButton] (updating 0) (updating 1)
           [GetCurrentPosition first_options] eq_refl eq_refl).
Defined.

Lemma locating_has_pending_call_witness : outstanding locating <> [].
Proof.
  exact (locating_has_pending_call browser locating
           MapPickerProofs.locating_reachable eq_refl).
Defined.

Lemma two_timeouts_run :
  run browser (init None) two_timeouts =
  Some (set_isLocating false (set_outstanding [] locating),
        [GetCurrentPosition first_options; GetCurrentPosition retry_options;
         FlyTo centre 11 false]).
Proof. vm_compute. reflexivity. Qed.

Lemma at_most_two_calls_per_trigger_witness :
  (length (requests [GetCurrentPosition first_options;
                     GetCurrentPosition retry_options;
                     FlyTo centre 11 false]) <=
   2 * count_events is_trigger two_timeouts)%nat.
Proof.
  exact (at_most_two_calls_per_trigger browser None two_timeouts _ _
           two_timeouts_run).
Defined.

Lemma no_alert_without_button_press_witness :
  alerts [GetCurrentPosition first_options; GetCurrentPosition retry_options;
          FlyTo centre 11 false] = [].
Proof.
  refine (no_alert_without_button_press browser None two_timeouts _ _
            two_timeouts_run _).
  repeat (apply Forall_cons; split; [reflexivity|]). apply Forall_nil. exact I.
Defined.

Lemma step_alerts_or_calls_once_witness :
  (length (alerts [GetCurrentPosition retry_options]) +
   length (requests [GetCurrentPosition retry_options]) <= 1)%nat.
Proof.
  exact (step_alerts_or_calls_once browser locating (PositionError 0 3)
           _ _ eq_refl).
Defined.

Lemma success_in_fallback_shows_located_witness :
  exists s' out,
    step_form browser_without_webgl (updating 0)
      (PositionSuccess 0 31.63 (-7.99)) = Some (s', out) /\
    render s' = FallbackLocated /\ location s' = Some fix_.
Proof.
  eexists. eexists. split; [vm_compute; reflexivity|].
  destruct (success_in_fallback_shows_located browser_without_webgl
              (updating 0) 0%nat 31.63 (-7.99) _ _ eq_refl eq_refl)
    as (Hr & Hl & _).
  split; [exact Hr|exact Hl].
Defined.

Lemma manual_select_then_gps_overlaps_witness :
  exists s' out,
    run browser locating [Click ManualSelectButton; Click GpsButton] =
      Some (s', out) /\
    length (outstanding s') = 2%nat.
Proof.
  destruct (manual_select_then_gps_overlaps browser locating
              eq_refl eq_refl eq_refl) as (s' & out & Hrun & Hout & _).
  exists s', out. split; [exact Hrun|]. rewrite Hout. reflexivity.
Defined.

End MapPickerMore.

(** ** Further properties of the recorder *)

Module MediaUploaderMore.
Import MediaUploader MediaUploaderTraces.

Ltac run_handlers := MediaUploaderProofs.run_handlers.

Lemma Forall_list_filter {A} (P : A -> Prop) (f : A -> bool) l :
  Forall P l -> Forall P (List.filter f l).
Proof.
  rewrite !List.Forall_forall. intros Hall x Hx.
  apply List.filter_In in Hx. apply Hall. exact (proj1 Hx).
Qed.

Lemma find_interval_captured id s iv :
  live s -> find_interval id s = Some iv -> iv_isRecording iv = false.
Proof.
  intros (_ & _ & Hiv) Hfind. unfold find_interval in Hfind.
  apply List.find_some in Hfind. destruct Hfind as [Hin _].
  rewrite List.Forall_forall in Hiv. exact (Hiv iv Hin).
Qed.

Lemma step_live s e s' out :
  step s e = Some (s', out) ->
  live s -> live s' /\ invalid_state_errors out = [].
Proof.
  intros Hstep Hlive.
  destruct e as [|i granted|id|r data| |b]; cbn [step] in Hstep.
  - destruct (audioBlob s); [discriminate|].
    destruct (isRecording s) eqn:Hrec.
    + destruct Hlive as (Href & Haw & Hiv).
      destruct (Href Hrec) as (r & Hr & Hlook).
      destruct s as [ab ir rt ip rs mr ac tr ivs ni aw]. cbn in *. subst.
      run_handlers. rewrite Hlook in Hstep.
      destruct tr as [id|]; [destruct (id =? 0)|];
        injection Hstep as <- <-; (split; [|reflexivity]);
        (split; [discriminate|]); (split; [exact Haw|]);
        try exact Hiv; apply Forall_list_filter; exact Hiv.
    + destruct s as [ab ir rt ip rs mr ac tr ivs ni aw]. cbn in *. subst.
      run_handlers. injection Hstep as <- <-. split; [|reflexivity].
      destruct Hlive as (Href & Haw & Hiv).
      split; [discriminate|]. split; [|exact Hiv].
      apply Forall_app. split; [exact Haw|].
      apply Forall_cons. split; [reflexivity|apply Forall_nil; exact I].
  - destruct (awaiting s !! i) as [b|] eqn:Hi; [|discriminate].
    destruct Hlive as (Href & Haw & Hiv).
    pose proof (Forall_lookup_1 _ _ _ _ Haw Hi) as Hb. cbn in Hb. subst b.
    destruct s as [ab ir rt ip rs mr ac tr ivs ni aw]. cbn in *.
    destruct granted; run_handlers; injection Hstep as <- <-;
      (split; [|reflexivity]).
    + split.
      * intros _. eexists. split; [reflexivity|].
        apply list_lookup_insert_eq. rewrite length_app. cbn. lia.
      * split; [apply Forall_delete; exact Haw|].
        apply Forall_app. split; [exact Hiv|].
        apply Forall_cons. split; [reflexivity|apply Forall_nil; exact I].
    + split; [exact Href|]. split; [apply Forall_delete; exact Haw|exact Hiv].
  - destruct (find_interval id s) as [iv|] eqn:Hfind; [|discriminate].
    pose proof (find_interval_captured id s iv Hlive Hfind) as Hcap.
    destruct iv as [n c]. cbn in Hcap. subst c.
    destruct s as [ab ir rt ip rs mr ac tr ivs ni aw]. cbn in *.
    run_handlers. destruct (rt >=? 30); [destruct mr|];
      injection Hstep as <- <-; (split; [exact Hlive|reflexivity]).
  - destruct (recorders s !! r) as [[| |]|] eqn:Hr; try discriminate.
    destruct Hlive as (Href & Haw & Hiv).
    destruct s as [ab ir rt ip rs mr ac tr ivs ni aw]. cbn in *.
    run_handlers. destruct (size data >? 0);
      injection Hstep as <- <-; (split; [|reflexivity]);
      (split; [|split; assumption]);
      intros Hir; destruct (Href Hir) as (r0 & Hr0 & Hlook);
      exists r0; (split; [exact Hr0|]); cbn [recorders];
      (rewrite list_lookup_insert_ne; [exact Hlook|congruence]).
  - destruct (audioBlob s); [|discriminate].
    injection Hstep as <- <-. split; [exact Hlive|reflexivity].
  - injection Hstep as <- <-. split; [exact Hlive|reflexivity].
Qed.

Lemma step_stops_need_press s e s' out :
  step s e = Some (s', out) ->
  live s ->
  (length (recorder_stops out) <= (if is_press e then 1 else 0))%nat.
Proof.
  intros Hstep Hlive.
  destruct e as [|i granted|id|r data| |b]; cbn [step] in Hstep.
  - destruct (audioBlob s); [discriminate|].
    destruct s as [ab ir rt ip rs mr ac tr ivs ni aw]. cbn in *.
    destruct ir; run_handlers.
    + destruct mr as [r|]; [|injection Hstep as <- <-; cbn; lia].
      destruct (rs !! r) as [[| |]|]; destruct tr as [id|];
        try destruct (id =? 0); injection Hstep as <- <-; cbn; lia.
    + injection Hstep as <- <-. cbn. lia.
  - destruct (awaiting s !! i) as [b|]; [|discriminate].
    destruct s as [ab ir rt ip rs mr ac tr ivs ni aw]. cbn in *.
    destruct granted; run_handlers; injection Hstep as <- <-; cbn; lia.
  - destruct (find_interval id s) as [iv|] eqn:Hfind; [|discriminate].
    pose proof (find_interval_captured id s iv Hlive Hfind) as Hcap.
    destruct iv as [n c]. cbn in Hcap. subst c.
    destruct s as [ab ir rt ip rs mr ac tr ivs ni aw]. cbn in *.
    run_handlers. destruct (rt >=? 30); [destruct mr|];
      injection Hstep as <- <-; cbn; lia.
  - destruct (recorders s !! r) as [[| |]|]; try discriminate.
    destruct s as [ab ir rt ip rs mr ac tr ivs ni aw]. cbn in *.
    run_handlers. destruct (size data >? 0);
      injection Hstep as <- <-; cbn; lia.
  - destruct (audioBlob s); [|discriminate].
    injection Hstep as <- <-. cbn. lia.
  - injection Hstep as <- <-. cbn. lia.
Qed.

Lemma init_live : live init.
Proof.
  split; [discriminate|]. split; apply Forall_nil; exact I.
Qed.

Lemma run_live es : forall s s' out,
  run s es = Some (s', out) ->
  live s ->
  live s' /\ invalid_state_errors out = [] /\
  (length (recorder_stops out) <= length (List.filter is_press es))%nat.
Proof.
  induction es as [|e es IH]; intros s s' out Hrun Hlive; cbn [run] in Hrun.
  - injection Hrun as <- <-. repeat split; try apply Hlive. cbn. lia.
  - destruct (step s e) as [[s1 o1]|] eqn:H1; [|discriminate].
    destruct (run s1 es) as [[s2 o2]|] eqn:H2; [|discriminate].
    injection Hrun as <- <-.
    destruct (step_live _ _ _ _ H1 Hlive) as [Hlive1 Hinv1].
    pose proof (step_stops_need_press _ _ _ _ H1 Hlive) as Hst1.
    destruct (IH _ _ _ H2 Hlive1) as (Hlive2 & Hinv2 & Hst2).
    split; [exact Hlive2|]. split.
    + unfold invalid_state_errors in *.
      rewrite List.filter_app, Hinv1, Hinv2. reflexivity.
    + unfold recorder_stops in *. rewrite List.filter_app, length_app.
      cbn [List.filter]. destruct (is_press e); cbn [length]; lia.
Qed.

(** X13: in every run from the idle widget, [stop()] is called at most once
    per press of the round button: timer ticks, however many, never stop a
    recorder. *)
Theorem stops_only_by_press es s out :
  run init es = Some (s, out) ->
  (length (recorder_stops out) <= length (List.filter is_press es))%nat.
Proof.
  intros Hrun. exact (proj2 (proj2 (run_live es _ _ _ Hrun init_live))).
Qed.

(** X14: pressing the button while a recording runs stops its recorder,
    and when the recorder has delivered its last data the chunks collected
    so far, followed by that data unless it is empty, reach [onAudioChange]
    as one audio/webm blob, once. *)
Theorem manual_stop_delivers_chunks s r data :
  audioBlob s = None ->
  isRecording s = true ->
  mediaRecorderRef s = Some r ->
  recorders s !! r = Some Recording ->
  exists s' out,
    run s [ClickRecord; RecorderStopped r data] = Some (s', out) /\
    recorder_stops out = [RecorderStop r] /\
    audio_changes out =
      [OnAudioChange
         (Some (new_Blob (audioChunksRef s ++ kept data) "audio/webm"))] /\
    isRecording s' = false /\
    recorders s' !! r = Some Inactive.
Proof.
  intros Hab Hir Hmr Hr. pose proof (lookup_lt_Some _ _ _ Hr) as Hlt.
  destruct s as [ab ir rt ip rs mr ac tr ivs ni aw]. cbn in *. subst.
  unfold kept. cbn [run step]. run_handlers. rewrite Hr.
  assert (Hs : <[r:=Stopping]> rs !! r = Some Stopping)
    by (apply list_lookup_insert_eq; exact Hlt).
  assert (Hi : <[r:=Inactive]> (<[r:=Stopping]> rs) !! r = Some Inactive)
    by (apply list_lookup_insert_eq; rewrite length_insert; exact Hlt).
  destruct tr as [id|]; [destruct (id =? 0)|]; rewrite Hs;
    destruct (size data >? 0); rewrite ?app_nil_r;
    eexists; eexists; (split; [reflexivity|]);
    repeat split; try reflexivity; exact Hi.
Qed.

Lemma step_never_recorded s e s' out :
  step s e = Some (s', out) ->
  is_grant e = false ->
  never_recorded s -> never_recorded s'.
Proof.
  unfold never_recorded. intros Hstep Hg (Hir & Hrs & Hiv & Hrt).
  destruct s as [ab ir rt ip rs mr ac tr ivs ni aw]. cbn in *. subst.
  destruct e as [|i [|]|id|r data| |b]; try discriminate Hg;
    cbn [step] in Hstep; run_handlers.
  - destruct ab; [discriminate|]. injection Hstep as <- <-.
    repeat split; reflexivity.
  - destruct (aw !! i); [|discriminate]. injection Hstep as <- <-.
    repeat split; reflexivity.
  - discriminate.
  - rewrite lookup_nil in Hstep. discriminate.
  - destruct ab; [|discriminate]. injection Hstep as <- <-.
    repeat split; reflexivity.
  - injection Hstep as <- <-. repeat split; reflexivity.
Qed.

(** X15: unless the microphone is granted, nothing is ever recorded: in
    every run from the idle widget in which [getUserMedia] never resolves,
    [isRecording] stays false, no recorder and no timer exist, the
    displayed time stays 0, and no timer can fire. *)
Theorem no_grant_no_recording es : forall s out,
  run init es = Some (s, out) ->
  Forall (fun e => is_grant e = false) es ->
  never_recorded s.
Proof.
  assert (Hgen : forall s0 s out,
             run s0 es = Some (s, out) ->
             Forall (fun e => is_grant e = false) es ->
             never_recorded s0 -> never_recorded s).
  { induction es as [|e es IH]; intros s0 s out Hrun Hes H0; cbn [run] in Hrun.
    - injection Hrun as <- _. exact H0.
    - destruct (step s0 e) as [[s1 o1]|] eqn:H1; [|discriminate].
      destruct (run s1 es) as [[s2 o2]|] eqn:H2; [|discriminate].
      injection Hrun as <- _. apply Forall_cons in Hes.
      destruct Hes as [He Hes].
      eapply IH; [exact H2|exact Hes|].
      eapply step_never_recorded; eassumption. }
  intros s out Hrun Hes. eapply Hgen; [exact Hrun|exact Hes|].
  repeat split; reflexivity.
Qed.

Lemma stops_only_by_press_witness :
  (length (recorder_stops [GetUserMedia; RecorderStart 0; SetInterval 1]) <=
   length (List.filter is_press [ClickRecord; UserMedia 0 true]))%nat.
Proof.
  exact (stops_only_by_press _ _ _ MediaUploaderProofs.start_recording).
Defined.

Lemma manual_stop_delivers_chunks_witness :
  exists s' out,
    run (recording_at 5) [ClickRecord; RecorderStopped 0 chunk] =
      Some (s', out) /\
    audio_changes out =
      [OnAudioChange (Some (new_Blob [chunk] "audio/webm"))].
Proof.
  destruct (manual_stop_delivers_chunks (recording_at 5) 0%nat chunk
              eq_refl eq_refl eq_refl eq_refl)
    as (s' & out & Hrun & _ & Hout & _).
  exists s', out. split; [exact Hrun|exact Hout].
Defined.

Lemma refused_run :
  run init refused = Some (init, [GetUserMedia; AlertMicrophone]).
Proof. vm_compute. reflexivity. Qed.

Lemma no_grant_no_recording_witness : never_recorded init.
Proof.
  refine (no_grant_no_recording refused init _ refused_run _).
  repeat (apply Forall_cons; split; [reflexivity|]). apply Forall_nil. exact I.
Defined.

(** X25: whatever the user, the timers, the recorders and the parent do,
    the displayed recording time stays between 0 and 30, also with several
    intervals running at once. *)
Theorem time_never_exceeds_30 es s out :
  run init es = Some (s, out) -> 0 <= recordingTime s <= 30.
Proof.
  intros Hrun.
  refine (MediaUploaderProofs.run_time_in_range es init s out Hrun _).
  unfold time_in_range. cbn. lia.
Qed.

Lemma time_never_exceeds_30_witness :
  0 <= recordingTime (recording_at 0) <= 30.
Proof.
  exact (time_never_exceeds_30 _ _ _ MediaUploaderProofs.start_recording).
Defined.

End MediaUploaderMore.

(** ** Properties of the time label *)

Module MediaLabelsProofs.
Import MediaLabels.

Lemma no_colon_digits d : no_colon (NilEmpty.string_of_uint d) = true.
Proof. induction d; cbn; try rewrite IHd; reflexivity. Qed.

Lemma no_colon_toString n : 0 <= n -> no_colon (toString n) = true.
Proof.
  intros Hn. unfold toString. destruct n as [|p|p]; [reflexivity| |lia].
  cbn [Z.to_int NilZero.string_of_int]. unfold NilZero.string_of_uint.
  destruct (Pos.to_uint p); try reflexivity; apply no_colon_digits.
Qed.

Lemma split_colon_app a b :
  no_colon a = true -> split_colon (a ++ String ":" b) = Some (a, b).
Proof.
  induction a as [|c a IH]; cbn [append split_colon no_colon]; intros Ha;
    [reflexivity|].
  apply andb_prop in Ha. destruct Ha as [Hc Ha].
  apply negb_true_iff in Hc. rewrite Hc, (IH Ha). reflexivity.
Qed.

Lemma read_toString n : 0 <= n -> read_number (toString n) = Some n.
Proof.
  intros Hn. unfold read_number, toString.
  rewrite NilZero.isi.
  - cbn. rewrite DecimalZ.of_to. reflexivity.
  - destruct n as [|p|p]; cbn; [intros [=]| |lia]. intros [= Hp].
    exact (DecimalPos.Unsigned.to_uint_nonnil p Hp).
  - destruct n as [|p|p]; [intros [=]|intros [=]|lia].
Qed.

(** Checking a property of the numbers below a bound by running it. *)
Lemma below_bound (P : Z -> bool) (bound : nat) :
  forallb (fun n => P (Z.of_nat n)) (List.seq 0 bound) = true ->
  forall z, 0 <= z < Z.of_nat bound -> P z = true.
Proof.
  intros Hall z Hz. rewrite forallb_forall in Hall.
  specialize (Hall (Z.to_nat z)). rewrite Z2Nat.id in Hall by lia.
  apply Hall. apply List.in_seq. lia.
Qed.

Lemma read_padded r :
  0 <= r < 60 -> read_number (padStart 2 "0" (toString r)) = Some r.
Proof.
  intros Hr.
  pose proof (below_bound
    (fun z => match read_number (padStart 2 "0" (toString z)) with
              | Some y => y =? z
              | None => false
              end) 60 ltac:(vm_compute; reflexivity) r Hr) as Hc.
  cbv beta in Hc.
  destruct (read_number (padStart 2 "0" (toString r))) as [y|];
    [|discriminate].
  apply Z.eqb_eq in Hc. congruence.
Qed.

Lemma formatTime_read seconds :
  0 <= seconds -> read_time (formatTime seconds) = Some seconds.
Proof.
  intros Hs. unfold read_time, formatTime. cbv zeta.
  change (":" ++ ?x)%string with (String ":" x).
  rewrite split_colon_app by (apply no_colon_toString; apply Z.div_pos; lia).
  rewrite read_toString by (apply Z.div_pos; lia).
  rewrite read_padded by (apply Z.rem_bound_pos; lia).
  f_equal. rewrite Z.rem_mod_nonneg by lia.
  pose proof (Z.div_mod seconds 60 ltac:(lia)). lia.
Qed.

(** X16: under one hour, times that differ get labels that differ: for
    whole numbers of seconds from 0 to 3599, [formatTime] never gives two of
    them the same label. *)
Theorem formatTime_distinct a b :
  0 <= a < 3600 -> 0 <= b < 3600 -> a <> b ->
  formatTime a <> formatTime b.
Proof.
  intros Ha Hb Hne Heq. apply Hne.
  pose proof (formatTime_read a ltac:(lia)) as Ra. rewrite Heq in Ra.
  rewrite (formatTime_read b ltac:(lia)) in Ra. congruence.
Qed.

Lemma formatTime_distinct_witness :
  formatTime 29 = "0:29"%string /\ formatTime 30 = "0:30"%string /\
  formatTime 29 <> formatTime 30.
Proof.
  split; [reflexivity|]. split; [reflexivity|].
  exact (formatTime_distinct 29 30 ltac:(lia) ltac:(lia) ltac:(lia)).
Defined.

(** X17: every time the recorder can display is shown as ["0:dd"], zero
    minutes and exactly two digits of seconds, as the fixed ["/ 0:30"] it
    is shown beside. *)
Theorem displayed_label_shape es s out :
  MediaUploader.run MediaUploader.init es = Some (s, out) ->
  zero_minutes_two_digits (formatTime (MediaUploader.recordingTime s)) = true.
Proof.
  intros Hrun.
  pose proof (MediaUploaderProofs.displayed_time_bounded es s out Hrun) as Ht.
  apply (below_bound (fun z => zero_minutes_two_digits (formatTime z)) 31);
    [vm_compute; reflexivity|lia].
Qed.

Lemma displayed_label_shape_witness :
  zero_minutes_two_digits
    (formatTime (MediaUploader.recordingTime (MediaUploader.recording_at 0))) =
  true.
Proof.
  exact (displayed_label_shape _ _ _ MediaUploaderProofs.start_recording).
Defined.

End MediaLabelsProofs.

(** ** Properties of the photo handlers *)

Module MediaPhotosProofs.
Import MediaPhotos.

Section Photos.
Context {File : Type}.
Implicit Types (photos : list File) (index : Z).

(** X18: removing the photo at an index inside the list hands the parent
    the list without exactly that photo: one shorter, the photos before the
    index where they were, those after it moved down by one. *)
Theorem removePhoto_in_range index photos :
  0 <= index < Z.of_nat (length photos) ->
  exists rest,
    removePhoto index photos = [OnPhotosChange rest] /\
    length photos = S (length rest) /\
    forall j,
      rest !! j =
      photos !! (if (j <? Z.to_nat index)%nat then j else S j).
Proof.
  intros Hi. exists (delete (Z.to_nat index) photos).
  unfold removePhoto, splice1. cbv zeta.
  replace (index <? 0) with false by (symmetry; apply Z.ltb_ge; lia).
  rewrite Z.min_l by lia. split; [reflexivity|]. split.
  - assert (Hlt : (Z.to_nat index < length photos)%nat) by lia.
    rewrite length_delete by (apply lookup_lt_is_Some; exact Hlt). lia.
  - intros j. destruct (Nat.ltb_spec j (Z.to_nat index)).
    + apply list_lookup_delete_lt. assumption.
    + apply list_lookup_delete_ge. assumption.
Qed.

(** X19: an index at or past the end removes nothing: the parent is handed
    the same photos. *)
Theorem removePhoto_past_end index photos :
  Z.of_nat (length photos) <= index ->
  removePhoto index photos = [OnPhotosChange photos].
Proof.
  intros Hi. unfold removePhoto, splice1. cbv zeta.
  replace (index <? 0) with false by (symmetry; apply Z.ltb_ge; lia).
  rewrite Z.min_r by lia. rewrite Nat2Z.id.
  rewrite delete_take_drop, take_ge, drop_ge by lia.
  rewrite app_nil_r. reflexivity.
Qed.

(** X20: a captured photo is appended after the photos already there, and
    removing the photo at the last index (or at index -1) then hands the
    parent the photos as they were before; any further files of the same
    capture are ignored. *)
Theorem capture_then_remove_last newPhoto others photos :
  handleCameraCapture (Some (newPhoto :: others)) photos =
    [OnPhotosChange (photos ++ [newPhoto]); ResetInput] /\
  removePhoto (Z.of_nat (length photos)) (photos ++ [newPhoto]) =
    [OnPhotosChange photos] /\
  removePhoto (-1) (photos ++ [newPhoto]) = [OnPhotosChange photos].
Proof.
  assert (Hdel : delete (length photos) (photos ++ [newPhoto]) = photos).
  { rewrite delete_take_drop, take_app_length.
    rewrite drop_ge by (rewrite length_app; cbn; lia).
    apply app_nil_r. }
  split; [reflexivity|]. unfold removePhoto, splice1. cbv zeta.
  rewrite length_app. cbn [length]. split.
  - replace (Z.of_nat (length photos) <? 0) with false
      by (symmetry; apply Z.ltb_ge; lia).
    rewrite Z.min_l by lia. rewrite Nat2Z.id, Hdel. reflexivity.
  - replace (-1 <? 0) with true by reflexivity.
    replace (Z.to_nat (Z.max (Z.of_nat (length photos + 1) + -1) 0))
      with (length photos) by lia.
    rewrite Hdel. reflexivity.
Qed.

(** X21: the gallery handler keeps every photo already there at its index
    and appends the chosen files in their order; with an empty choice it
    still notifies the parent (with the same photos), whereas the camera
    handler then does nothing, and neither does anything when the input
    has no file list. *)
Theorem select_appends_in_order newPhotos photos :
  exists all,
    handlePhotoSelect (Some newPhotos) photos =
      [OnPhotosChange all; ResetInput] /\
    length all = (length photos + length newPhotos)%nat /\
    (forall j, (j < length photos)%nat -> all !! j = photos !! j) /\
    (forall k, all !! (length photos + k)%nat = newPhotos !! k) /\
    (newPhotos = [] -> all = photos) /\
    handleCameraCapture (Some []) photos = [] /\
    handlePhotoSelect None photos = [] /\
    handleCameraCapture None photos = [].
Proof.
  exists (photos ++ newPhotos). split; [reflexivity|].
  split; [apply length_app|]. split; [intros j Hj; apply lookup_app_l; exact Hj|].
  split; [intros k; rewrite lookup_app_r by lia; f_equal; lia|].
  split; [intros ->; apply app_nil_r|]. repeat split; reflexivity.
Qed.

End Photos.

Lemma removePhoto_in_range_witness :
  exists rest,
    removePhoto 1 [10%nat; 20%nat; 30%nat] = [OnPhotosChange rest] /\
    rest !! 1%nat = Some 30%nat.
Proof.
  destruct (removePhoto_in_range 1 [10%nat; 20%nat; 30%nat] ltac:(cbn; lia))
    as (rest & Hr & _ & Hj).
  exists rest. split; [exact Hr|]. rewrite (Hj 1%nat). reflexivity.
Defined.

Lemma removePhoto_past_end_witness :
  removePhoto 3 [10%nat; 20%nat; 30%nat] =
  [OnPhotosChange [10%nat; 20%nat; 30%nat]].
Proof.
  exact (removePhoto_past_end 3 [10%nat; 20%nat; 30%nat] ltac:(cbn; lia)).
Defined.

End MediaPhotosProofs.

(** ** Properties of the playback *)

Module MediaPlaybackProofs.
Import MediaUploader MediaPlayback.

Ltac run_players :=
  cbv [seq skip emit modify lift audio_pause audio_play playAudio onended
       setIsPlaying set_isPlaying deleteAudio setRecordingTime
       set_recordingTime set_audioBlob
       set_widget set_audioPlayerRef set_created set_sounding
       widget audioPlayerRef created sounding
       audioBlob isRecording recordingTime isPlaying recorders
       mediaRecorderRef audioChunksRef timerRef intervals next_interval
       awaiting] in *.

Lemma keep_others a : List.filter (fun b => negb (Nat.eqb b a)) [a] = [].
Proof. cbn. rewrite Nat.eqb_refl. reflexivity. Qed.




(** X23: with a voice note and nothing playing, pressing play starts one
    new [Audio] made from the blob, and pressing it again pauses that same
    [Audio] and leaves nothing sounding and the icon back to "play". *)
Theorem play_twice_pauses ps blob :
  audioBlob (widget ps) = Some blob ->
  audioPlayerRef ps = None ->
  sounding ps = [] ->
  exists ps',
    prun ps [ClickPlay; ClickPlay] =
      Some (ps', [CreateObjectURL blob; AudioPlay (created ps);
                  AudioPause (created ps)]) /\
    sounding ps' = [] /\
    audioPlayerRef ps' = None /\
    isPlaying (widget ps') = false.
Proof.
  intros Hb Hr Hs. destruct ps as [w ref n snd]. cbn in *. subst.
  destruct w as [ab ir rt ip rs mr ac tr ivs ni aw]. cbn in *. subst.
  cbn [prun pstep]. run_players. cbn. rewrite Nat.eqb_refl.
  eexists. split; [reflexivity|]. repeat split; reflexivity.
Qed.

(** X24: deleting the voice note while it plays does not stop the sound:
    no [pause()] is called and the ref keeps the [Audio]; the icon alone
    goes back to "play".  On the next voice note the first press of play
    then only pauses that old [Audio] and starts nothing. *)
Theorem delete_does_not_silence ps a old blob :
  audioBlob (widget ps) = Some old ->
  audioPlayerRef ps = Some a ->
  sounding ps = [a] ->
  exists ps1 ps2,
    pstep ps (Recorder ClickDelete) =
      Some (ps1, [Widget (OnAudioChange None)]) /\
    sounding ps1 = [a] /\
    audioPlayerRef ps1 = Some a /\
    isPlaying (widget ps1) = false /\
    prun ps1 [Recorder (AudioProp (Some blob)); ClickPlay] =
      Some (ps2, [AudioPause a]) /\
    sounding ps2 = [] /\
    isPlaying (widget ps2) = false.
Proof.
  intros Hb Hr Hs. destruct ps as [w ref n snd]. cbn in *. subst.
  destruct w as [ab ir rt ip rs mr ac tr ivs ni aw]. cbn in *. subst.
  eexists. eexists. split; [cbn [pstep step]; run_players; reflexivity|].
  split; [reflexivity|]. split; [reflexivity|]. split; [reflexivity|].
  cbn [prun pstep step]. run_players. cbn. rewrite Nat.eqb_refl.
  split; [reflexivity|]. split; reflexivity.
Qed.


Lemma play_twice_pauses_witness :
  exists ps',
    prun (with_note MediaUploaderTraces.chunk) [ClickPlay; ClickPlay] =
      Some (ps', [CreateObjectURL MediaUploaderTraces.chunk; AudioPlay 0;
                  AudioPause 0]) /\
    sounding ps' = [].
Proof.
  destruct (play_twice_pauses (with_note MediaUploaderTraces.chunk)
              MediaUploaderTraces.chunk eq_refl eq_refl eq_refl)
    as (ps' & Hrun & Hs & _).
  exists ps'. split; [exact Hrun|exact Hs].
Defined.

Lemma delete_does_not_silence_witness :
  exists ps1,
    pstep (playing_note MediaUploaderTraces.chunk) (Recorder ClickDelete) =
      Some (ps1, [Widget (OnAudioChange None)]) /\
    sounding ps1 = [0%nat].
Proof.
  destruct (delete_does_not_silence (playing_note MediaUploaderTraces.chunk)
              0%nat MediaUploaderTraces.chunk MediaUploaderTraces.chunk
              eq_refl eq_refl eq_refl)
    as (ps1 & ps2 & Hstep & Hs & _).
  exists ps1. split; [exact Hstep|exact Hs].
Defined.

End MediaPlaybackProofs.
